(** * Othello player: search, evaluator and transposition table

    A shallow embedding of [src/player.cpp] (class [Player]) and the
    properties of its move search, its evaluator, its transposition table
    and its opening precomputation.

    Conventions of the embedding:
    - a C [int] is a [Z] with the 32-bit two's-complement wrap-around written
      out ([to_int]); a [size_t] is a [Z] reduced modulo [2^64];
    - a [bitset<64>] is an [N], read as [to_ullong] reads it;
    - a [std::string] is a [string];
    - the objects owned through pointers ([Board *], [Move *]) are values;
      the number of live heap objects is kept in two counters of the player
      state, so that [new]/[copy] and [delete] stay visible;
    - the operations performed on [_table] are appended to a log kept in
      the player state;
    - loops and recursion that the source does not bound run on fuel. *)

From Stdlib Require Import ZArith NArith String Ascii List Bool Lia.
From Stdlib Require Import Permutation Sorted RelationClasses.
From Stdlib Require Import DecimalString DecimalN OrdersEx.
Import ListNotations.

Local Open Scope Z_scope.

(** ** Machine integers *)

(** [2^31], and the masks of the low 32 and the low 64 bits, as numerals. *)
Definition two_p31 : Z := Eval cbv in 2 ^ 31.
Definition mask32 : Z := Eval cbv in Z.ones 32.
Definition mask64 : Z := Eval cbv in Z.ones 64.

Definition INT_MIN : Z := - two_p31.
Definition INT_MAX : Z := two_p31 - 1.

(** Conversion of a mathematical value to [int]: the low 32 bits, read in
    two's complement. *)
Definition to_int (z : Z) : Z := Z.land (z + two_p31) mask32 - two_p31.

(** Conversion of a mathematical value to [size_t]: the low 64 bits. *)
Definition to_size_t (z : Z) : Z := Z.land z mask64.

Definition in_int (z : Z) : Prop := INT_MIN <= z <= INT_MAX.

(** [score += e] and [score -= e] for an [int score] and a [size_t e]: the
    usual arithmetic conversions take [score] to [size_t], the operation is
    done modulo [2^64] and the result is converted back to [int]. *)
Definition int_add_assign (score e : Z) : Z :=
  to_int (to_size_t (to_size_t score + e)).

Definition int_sub_assign (score e : Z) : Z :=
  to_int (to_size_t (to_size_t score - e)).

(** [w * c] for an [int] constant [w] and a [size_t c]. *)
Definition size_mul (w c : Z) : Z := to_size_t (to_size_t w * c).

(** [a - b] on two [size_t]. *)
Definition size_sub (a b : Z) : Z := to_size_t (a - b).

(** ** Bitsets *)

Fixpoint popcount_pos (p : positive) : Z :=
  match p with
  | xH => 1
  | xO q => popcount_pos q
  | xI q => 1 + popcount_pos q
  end.

(** [bitset<64>::count()]. *)
Definition popcount (n : N) : Z :=
  match n with
  | N0 => 0
  | Npos p => popcount_pos p
  end.

(** The bitset with all 64 bits set. *)
Definition all_cells : N := Eval cbv in N.ones 64.

(** [~x] on a [bitset<64>]. *)
Definition bitset_not (x : N) : N := N.lxor x all_cells.

Definition EDGES : N := 0xff818181818181ff%N.
Definition CORNERS : N := 0x8100000000000081%N.

(** ** Strings *)

(** [std::to_string] on an [unsigned long long]. *)
Definition to_string (n : N) : string :=
  NilEmpty.string_of_uint (N.to_uint n).

(** The key of the transposition table: [to_string(a) + ", " + to_string(t)]. *)
Definition make_hash (ai_side total : N) : string :=
  (to_string ai_side ++ ", " ++ to_string total)%string.

(** ** Sides *)

Inductive Side : Type := BLACK | WHITE.

Definition Side_eqb (a b : Side) : bool :=
  match a, b with
  | BLACK, BLACK | WHITE, WHITE => true
  | _, _ => false
  end.

(** [(s == BLACK) ? WHITE : BLACK]. *)
Definition other_side (s : Side) : Side :=
  match s with
  | BLACK => WHITE
  | WHITE => BLACK
  end.

(** ** Results of computations that run on fuel *)

Inductive res (A : Type) : Type :=
| Ok (a : A)       (* the computation returned [a] *)
| Undef            (* undefined behaviour was reached *)
| NoFuel.          (* the fuel ran out *)

Arguments Ok {A} a.
Arguments Undef {A}.
Arguments NoFuel {A}.

Definition bind {A B : Type} (c : res A) (k : A -> res B) : res B :=
  match c with
  | Ok a => k a
  | Undef => Undef
  | NoFuel => NoFuel
  end.

Notation "'let*' x ':=' c 'in' k" := (bind c (fun x => k))
  (at level 10, x pattern, c at level 100, k at level 200).

Fixpoint mapM {A B : Type} (f : A -> res B) (l : list A) : res (list B) :=
  match l with
  | [] => Ok []
  | x :: xs =>
      let* y := f x in
      let* ys := mapM f xs in
      Ok (y :: ys)
  end.

(** ** The board collaborator

    [Board] and [Move] are declared outside [player.cpp]; the player uses
    the operations below.  [black] and [taken] are the two public
    [bitset<64>] members, read with [to_ullong].  [Board_doMove] is
    [Board::doMove] on a board value; [None] is the [NULL] move.  A move
    list is the vector that [getPossibleMoves] fills, in its order. *)
Class BoardOps : Type := {
  Board : Type;
  Move : Type;
  Board_new : Board;
  black : Board -> N;
  taken : Board -> N;
  count : Board -> Side -> Z;
  getPossibleMoves : Board -> Side -> list Move;
  Board_doMove : Board -> option Move -> Side -> Board;
  (* a [bitset<64>] has 64 bits *)
  black_range : forall b, (black b < 2 ^ 64)%N;
  taken_range : forall b, (taken b < 2 ^ 64)%N;
  (* a black cell is a taken cell *)
  black_taken : forall b, N.land (black b) (taken b) = black b;
  (* a board has 64 cells *)
  count_range : forall b s, 0 <= count b s <= 64
}.

(** ** The transposition table

    [_table] is declared outside [player.cpp].  The player uses the
    interface of the standard associative containers on it: [find],
    [operator[]], [size], [begin], [erase] and [clear].  [tbl_entries] lists
    the entries in the order in which the container iterates over them, so
    that its head is [*begin()]. *)
Class TableOps : Type := {
  Table : Type;
  tbl_empty : Table;
  tbl_entries : Table -> list (string * Z);
  tbl_find : Table -> string -> option Z;
  tbl_size : Table -> Z;                   (* [t.size()] *)
  tbl_erase_begin : Table -> Table;        (* [t.erase(t.begin())] *)
  tbl_assign : Table -> string -> Z -> Table;   (* [t[k] = v] *)
  tbl_entries_empty : tbl_entries tbl_empty = [];
  tbl_size_spec : forall t, tbl_size t = Z.of_nat (List.length (tbl_entries t));
  tbl_keys_NoDup : forall t, NoDup (map fst (tbl_entries t));
  tbl_find_In : forall t k v,
      tbl_find t k = Some v <-> In (k, v) (tbl_entries t);
  tbl_entries_erase_begin : forall t,
      tbl_entries (tbl_erase_begin t) = tl (tbl_entries t);
  tbl_entries_assign_new : forall t k v,
      tbl_find t k = None ->
      Permutation (tbl_entries (tbl_assign t k v)) ((k, v) :: tbl_entries t)
}.

(** The key at [t.begin()]. *)
Definition tbl_begin_key `{TableOps} (t : Table) : option string :=
  match tbl_entries t with
  | [] => None
  | (k, _) :: _ => Some k
  end.

(** ** The player *)

(** Operations on [_table], as they are logged. *)
Inductive table_op : Type :=
| OpFind (k : string)                  (* [_table.find(k)] *)
| OpIndex (k : string)                 (* [_table[k]] read *)
| OpEraseBegin (k : option string)     (* [_table.erase(_table.begin())] *)
| OpAssign (k : string) (v : Z).       (* [_table[k] = v] *)

(** The constants that [player.cpp] takes from its headers: the three
    macros of [player.h] and [CLOCKS_PER_SEC] of the platform. *)
Class Params : Type := {
  MINIMAXDEPTH : Z;
  EDGEWEIGHT : Z;
  CORNERWEIGHT : Z;
  CLOCKS_PER_SEC : Z
}.

Section Player.

Context {BO : BoardOps} {TO : TableOps} {PA : Params}.

Record Player : Type := mkPlayer {
  testingMinimax : bool;
  _side : Side;
  _opponentSide : Side;
  _board : Board;
  _table : Table;
  (* bookkeeping: the operations done on [_table], most recent first *)
  table_log : list table_op;
  (* bookkeeping: live [Board] copies and live [Move] objects *)
  live_boards : Z;
  live_moves : Z
}.

Definition set_board (b : Board) (p : Player) : Player :=
  mkPlayer (testingMinimax p) (_side p) (_opponentSide p) b (_table p)
           (table_log p) (live_boards p) (live_moves p).

Definition set_table (t : Table) (p : Player) : Player :=
  mkPlayer (testingMinimax p) (_side p) (_opponentSide p) (_board p) t
           (table_log p) (live_boards p) (live_moves p).

Definition set_testing (f : bool) (p : Player) : Player :=
  mkPlayer f (_side p) (_opponentSide p) (_board p) (_table p)
           (table_log p) (live_boards p) (live_moves p).

Definition log_op (o : table_op) (p : Player) : Player :=
  mkPlayer (testingMinimax p) (_side p) (_opponentSide p) (_board p) (_table p)
           (o :: table_log p) (live_boards p) (live_moves p).

(** [n] boards are allocated ([n] negative: released). *)
Definition alloc_boards (n : Z) (p : Player) : Player :=
  mkPlayer (testingMinimax p) (_side p) (_opponentSide p) (_board p) (_table p)
           (table_log p) (live_boards p + n) (live_moves p).

(** [n] moves are allocated ([n] negative: released). *)
Definition alloc_moves (n : Z) (p : Player) : Player :=
  mkPlayer (testingMinimax p) (_side p) (_opponentSide p) (_board p) (_table p)
           (table_log p) (live_boards p) (live_moves p + n).

(** [b->getPossibleMoves(s, moves)]: the moves are fresh heap objects. *)
Definition possible_moves (b : Board) (s : Side) (p : Player)
  : list Move * Player :=
  let moves := getPossibleMoves b s in
  (moves, alloc_moves (Z.of_nat (length moves)) p).

(** *** [Player::evaluate] *)

(** The key under which [evaluate] stores a board. *)
Definition board_hash (p : Player) (b : Board) : string :=
  let ai_side :=
    match _side p with
    | BLACK => black b
    | WHITE => N.land (bitset_not (black b)) (taken b)
    end in
  let total := taken b in
  make_hash ai_side total.

(** The score that [evaluate] computes when the table has no entry. *)
Definition heuristic_score (p : Player) (b : Board) : Z :=
  let score := 0 in
  let white := N.land (taken b) (bitset_not (black b)) in
  let score :=
    int_add_assign score (size_sub (popcount (black b)) (popcount white)) in
  let score :=
    int_add_assign score (size_mul EDGEWEIGHT (popcount (N.land (black b) EDGES))) in
  let score :=
    int_add_assign score (size_mul CORNERWEIGHT (popcount (N.land (black b) CORNERS))) in
  let score :=
    int_sub_assign score (size_mul EDGEWEIGHT (popcount (N.land white EDGES))) in
  let score :=
    int_sub_assign score (size_mul CORNERWEIGHT (popcount (N.land white CORNERS))) in
  match _side p with
  | WHITE => to_int (score * -1)
  | BLACK => score
  end.

(** The score of material-only testing mode. *)
Definition material_score (p : Player) (b : Board) : Z :=
  to_int (count b (_side p) - count b (_opponentSide p)).

Definition evaluate (p : Player) (b : Board) : Z * Player :=
  if testingMinimax p then (material_score p b, p)
  else
    let hash := board_hash p b in
    let p := log_op (OpFind hash) p in
    match tbl_find (_table p) hash with
    | Some v => (v, log_op (OpIndex hash) p)
    | None =>
        let score := heuristic_score p b in
        (* mobility: the moves of BLACK are listed and deleted again *)
        let '(next_moves, p) := possible_moves b BLACK p in
        let p := alloc_moves (- Z.of_nat (length next_moves)) p in
        let p :=
          if 100000 <=? tbl_size (_table p)
          then log_op (OpEraseBegin (tbl_begin_key (_table p)))
                      (set_table (tbl_erase_begin (_table p)) p)
          else p in
        let p := log_op (OpAssign hash score)
                        (set_table (tbl_assign (_table p) hash score) p) in
        (score, p)
    end.

(** *** [Player::minimaxHelper] *)

(** The loop of a maximizing node.  [rec] is the recursive call at
    [depth - 1]. *)
Fixpoint max_loop (rec : Board -> Side -> Z -> Z -> Player -> res (Z * Player))
    (b : Board) (s : Side) (moves : list Move) (alpha beta : Z) (p : Player)
  : res (Z * Player) :=
  match moves with
  | [] => Ok (alpha, p)
  | m :: rest =>
      let p := alloc_boards 1 p in                       (* b->copy() *)
      let nextBoard := Board_doMove b (Some m) s in
      let* (score, p) := rec nextBoard (_opponentSide p) alpha beta p in
      let alpha := Z.max alpha score in
      if beta <=? alpha then Ok (alpha, p)               (* break *)
      else
        let p := alloc_moves (-1) p in                   (* delete *it *)
        let p := alloc_boards (-1) p in                  (* delete nextBoard *)
        max_loop rec b s rest alpha beta p
  end.

(** The loop of a minimizing node. *)
Fixpoint min_loop (rec : Board -> Side -> Z -> Z -> Player -> res (Z * Player))
    (b : Board) (s : Side) (moves : list Move) (alpha beta : Z) (p : Player)
  : res (Z * Player) :=
  match moves with
  | [] => Ok (beta, p)
  | m :: rest =>
      let p := alloc_boards 1 p in                       (* b->copy() *)
      let nextBoard := Board_doMove b (Some m) s in
      let* (score, p) := rec nextBoard (_side p) alpha beta p in
      let beta := Z.min beta score in
      if beta <=? alpha then Ok (beta, p)                (* break *)
      else
        let p := alloc_moves (-1) p in                   (* delete *it *)
        let p := alloc_boards (-1) p in                  (* delete nextBoard *)
        min_loop rec b s rest alpha beta p
  end.

(** [depth - 1] on an [int] is undefined at [INT_MIN]. *)
Definition pred_overflows (depth : Z) : bool := depth <=? INT_MIN.

Fixpoint minimaxHelper (fuel : nat) (depth : Z) (b : Board) (s : Side)
    (alpha beta : Z) (p : Player) : res (Z * Player) :=
  match fuel with
  | O => NoFuel
  | S fuel' =>
      if depth =? 0 then Ok (evaluate p b)
      else
        let '(moves, p) := possible_moves b s p in
        match moves with
        | [] => Ok (evaluate p b)
        | _ :: _ =>
            if pred_overflows depth then Undef
            else
              let rec := fun nb s' a bt q =>
                           minimaxHelper fuel' (depth - 1) nb s' a bt q in
              if Side_eqb s (_side p)
              then max_loop rec b s moves INT_MIN beta p
              else min_loop rec b s moves alpha INT_MAX p
        end
  end.

(** *** [Player::findMinimaxMove] *)

(** What the loop of [findMinimaxMove] leaves in its locals: [alpha],
    [best] (a move of the vector, with its index as its identity), and, for
    the record, the scores that the helper returned, in the order of the
    moves. *)
Record RootResult : Type := mkRoot {
  root_alpha : Z;
  root_best : option (nat * Move);
  root_scores : list Z
}.

(** [*it != best], for the move at index [i]. *)
Definition differs_from_best (i : nat) (best : option (nat * Move)) : bool :=
  match best with
  | Some (j, _) => negb (Nat.eqb i j)
  | None => true
  end.

Fixpoint root_loop (rec : Board -> Side -> Z -> Z -> Player -> res (Z * Player))
    (moves : list (nat * Move)) (alpha beta : Z) (best : option (nat * Move))
    (p : Player) : res (RootResult * Player) :=
  match moves with
  | [] => Ok (mkRoot alpha best [], p)
  | (i, m) :: rest =>
      let p := alloc_boards 1 p in                       (* _board->copy() *)
      let nextBoard := Board_doMove (_board p) (Some m) (_side p) in
      let* (score, p) := rec nextBoard (_opponentSide p) alpha beta p in
      let '(alpha, best) :=
        if alpha <=? score then (score, Some (i, m)) else (alpha, best) in
      let p := if differs_from_best i best
               then alloc_moves (-1) p                   (* delete *it *)
               else p in
      let p := alloc_boards (-1) p in                    (* delete nextBoard *)
      let* (r, p) := root_loop rec rest alpha beta best p in
      Ok (mkRoot (root_alpha r) (root_best r) (score :: root_scores r), p)
  end.

(** The body of [findMinimaxMove], with all its locals. *)
Definition root_search (fuel : nat) (depth : Z) (p : Player)
  : res (RootResult * Player) :=
  let alpha := INT_MIN in
  let beta := INT_MAX in
  let '(moves, p) := possible_moves (_board p) (_side p) p in
  match moves with
  | [] => Ok (mkRoot alpha None [], p)
  | _ :: _ =>
      if pred_overflows depth then Undef
      else
        root_loop (fun nb s' a bt q => minimaxHelper fuel (depth - 1) nb s' a bt q)
                  (combine (seq 0 (List.length moves)) moves) alpha beta None p
  end.

Definition findMinimaxMove (fuel : nat) (depth : Z) (p : Player)
  : res (option Move * Player) :=
  let* (r, p) := root_search fuel depth p in
  Ok (option_map snd (root_best r), p).

(** The best score at the root: [alpha] once a best move is set. *)
Definition root_best_score (r : RootResult) : option Z :=
  match root_best r with
  | Some _ => Some (root_alpha r)
  | None => None
  end.

(** *** [Player::findFirstMove] *)

Definition findFirstMove (p : Player) : option Move * Player :=
  let '(moves, p) := possible_moves (_board p) (_side p) p in
  (hd_error moves, p).

(** *** [Player::doMove] *)

(** The test of the deepening loop,
    [(double)(clock() - start) / (CLOCKS_PER_SEC / 1000) < time_allowed],
    for the reading [now] of [clock()].  The quotient
    [CLOCKS_PER_SEC / 1000] is an integer division; the comparison is the
    one of the rationals, which the doubles agree with when
    [CLOCKS_PER_SEC / 1000] is positive and the operands are integers below
    [2^53]. *)
Definition time_remains (now start time_allowed : Z) : bool :=
  now - start <? time_allowed * (CLOCKS_PER_SEC ÷ 1000).

(** [depth++] on an [int] is undefined at [INT_MAX]. *)
Definition succ_overflows (depth : Z) : bool := INT_MAX <=? depth.

(** The [while] loop of [doMove].  [clock k] is what the [k]-th call of
    [clock()] returns; [tick] counts the calls. *)
Fixpoint deepening_loop (fuel n : nat) (clock : nat -> Z) (tick : nat)
    (start time_allowed depth : Z) (m : option Move) (p : Player)
  : res (option Move * Player) :=
  match n with
  | O => NoFuel
  | S n' =>
      if time_remains (clock tick) start time_allowed then
        if testingMinimax p then
          let* (m, p) := findMinimaxMove fuel 2 p in
          deepening_loop fuel n' clock (S tick) start time_allowed depth m p
        else if succ_overflows depth then Undef
        else
          let* (m, p) := findMinimaxMove fuel depth p in
          deepening_loop fuel n' clock (S tick) start time_allowed (depth + 1) m p
      else Ok (m, p)
  end.

Definition doMove (clock : nat -> Z) (fuel : nat)
    (opponentsMove : option Move) (msLeft : Z) (p : Player)
  : res (option Move * Player) :=
  let p :=
    match opponentsMove with
    | Some _ =>
        set_board (Board_doMove (_board p) opponentsMove (_opponentSide p)) p
    | None => p
    end in
  let* (m, p) :=
    if 0 <? msLeft then
      let start := clock O in
      let time_allowed := msLeft ÷ 500 in
      let depth := MINIMAXDEPTH in
      deepening_loop fuel fuel clock 1%nat start time_allowed depth None p
    else if testingMinimax p then findMinimaxMove fuel 2 p
    else findMinimaxMove fuel MINIMAXDEPTH p in
  Ok (m, set_board (Board_doMove (_board p) m (_side p)) p).

(** *** [Player::computeOpening] *)

(** One round of the first loop, for the front pair [curr] and the rest of
    the queue. *)
Definition opening_body (p : Player) (curr : Side * Board)
    (rest : list (Side * Board)) : Player * list (Side * Board) :=
  let '(_, p) := evaluate p (snd curr) in
  let '(moves, p) := possible_moves (snd curr) (fst curr) p in
  let next := other_side (fst curr) in
  let children :=
    map (fun m => (next, Board_doMove (snd curr) (Some m) (fst curr))) moves in
  let p := alloc_boards (Z.of_nat (List.length moves)) p in   (* the copies *)
  let p := alloc_boards (-1) p in                        (* delete curr.second *)
  (p, rest ++ children).

(** The first loop.  [positions.front()] on an empty vector is undefined. *)
Fixpoint opening_loop (fuel : nat) (p : Player) (positions : list (Side * Board))
  : res (Player * list (Side * Board)) :=
  if tbl_size (_table p) <? 25000 then
    match fuel with
    | O => NoFuel
    | S fuel' =>
        match positions with
        | [] => Undef
        | curr :: rest =>
            let '(p, positions) := opening_body p curr rest in
            opening_loop fuel' p positions
        end
    end
  else Ok (p, positions).

(** The state at the head of the first loop after at most [n] rounds. *)
Fixpoint opening_after (n : nat) (p : Player) (positions : list (Side * Board))
  : Player * list (Side * Board) :=
  match n with
  | O => (p, positions)
  | S n' =>
      if tbl_size (_table p) <? 25000 then
        match positions with
        | [] => (p, positions)
        | curr :: rest =>
            let '(p, positions) := opening_body p curr rest in
            opening_after n' p positions
        end
      else (p, positions)
  end.

(** The queue with which [computeOpening] starts. *)
Definition opening_start (p : Player) : Player * list (Side * Board) :=
  (alloc_boards 1 p, [(_side p, _board p)]).

Definition computeOpening (fuel : nat) (p : Player) : res Player :=
  let '(p, positions) := opening_start p in
  let* (p, positions) := opening_loop fuel p positions in
  (* the second loop deletes what is left in the queue *)
  Ok (alloc_boards (- Z.of_nat (List.length positions)) p).

(** *** The constructor *)

(** The player before [computeOpening] runs. *)
Definition Player_init (side : Side) : Player :=
  mkPlayer false side
           (match side with BLACK => WHITE | WHITE => BLACK end)
           Board_new tbl_empty [] 1 0.

Definition Player_new (fuel : nat) (side : Side) : res Player :=
  computeOpening fuel (Player_init side).

End Player.

(** ** Notions that the properties are stated with *)

Section Reference.

Context {BO : BoardOps} {TO : TableOps} {PA : Params}.

(** The score that the evaluator assigns to a board, the table left aside:
    the material score in testing mode, the heuristic score otherwise. *)
Definition static_value (p : Player) (b : Board) : Z :=
  if testingMinimax p then material_score p b else heuristic_score p b.

(** Every score of the table is the score of the boards stored under its
    key. *)
Definition table_consistent (p : Player) : Prop :=
  forall b v, tbl_find (_table p) (board_hash p b) = Some v ->
              v = heuristic_score p b.

(** The table holds [int]s. *)
Definition table_int_valued (p : Player) : Prop :=
  forall k v, tbl_find (_table p) k = Some v -> in_int v.

(** The opponent is the other side, as the constructor sets it. *)
Definition sides_ok (p : Player) : Prop :=
  _opponentSide p = other_side (_side p).

(** [q] differs from [p] in the table and the bookkeeping only. *)
Definition same_game (p q : Player) : Prop :=
  testingMinimax q = testingMinimax p /\ _side q = _side p /\
  _opponentSide q = _opponentSide p /\ _board q = _board p.

(** *** Full minimax without pruning

    The search of the specification with no pruning: a leaf at depth 0 and
    where the side to move has no move, the maximum over all moves where
    the agent moves, the minimum over all moves where the opponent moves.
    [value] scores the leaves. *)
Definition maximum (v : Z) (vs : list Z) : Z := fold_left Z.max vs v.
Definition minimum (v : Z) (vs : list Z) : Z := fold_left Z.min vs v.

Fixpoint full_minimax (agent opponent : Side) (value : Board -> Z)
    (fuel : nat) (depth : Z) (b : Board) (s : Side) : res Z :=
  match fuel with
  | O => NoFuel
  | S fuel' =>
      if depth =? 0 then Ok (value b)
      else
        match getPossibleMoves b s with
        | [] => Ok (value b)
        | m :: ms =>
            if pred_overflows depth then Undef
            else
              let child := fun s' m' =>
                full_minimax agent opponent value fuel' (depth - 1)
                             (Board_doMove b (Some m') s) s' in
              if Side_eqb s agent then
                let* v := child opponent m in
                let* vs := mapM (child opponent) ms in
                Ok (maximum v vs)
              else
                let* v := child agent m in
                let* vs := mapM (child agent) ms in
                Ok (minimum v vs)
        end
  end.

(** The best score at the root for the agent to move on its board: the
    maximum over its moves of the full minimax value of the position after
    the move, the opponent to move, at [depth - 1]; none without a move. *)
Definition full_minimax_root (p : Player) (fuel : nat) (depth : Z)
  : res (option Z) :=
  match getPossibleMoves (_board p) (_side p) with
  | [] => Ok None
  | m :: ms =>
      if pred_overflows depth then Undef
      else
        let child := fun m' =>
          full_minimax (_side p) (_opponentSide p) (static_value p) fuel
                       (depth - 1)
                       (Board_doMove (_board p) (Some m') (_side p))
                       (_opponentSide p) in
        let* v := child m in
        let* vs := mapM child ms in
        Ok (Some (maximum v vs))
  end.

(** *** Insertion order of the table

    The keys that the log shows as stored and not erased since, the most
    recently stored first.  ([evaluate] stores a key only when the table
    does not hold it, so that no key is stored twice while it is live.) *)
Fixpoint remove_key (k : string) (l : list string) : list string :=
  match l with
  | [] => []
  | x :: r => if String.eqb k x then r else x :: remove_key k r
  end.

Definition replay_op (o : table_op) (live : list string) : list string :=
  match o with
  | OpAssign k _ => k :: live
  | OpEraseBegin (Some k) => remove_key k live
  | _ => live
  end.

Definition live_keys (log : list table_op) : list string :=
  fold_right replay_op [] log.

Fixpoint last_key (l : list string) : option string :=
  match l with
  | [] => None
  | k :: r =>
      match r with
      | [] => Some k
      | _ :: _ => last_key r
      end
  end.

(** The live key that was stored first. *)
Definition oldest_key (log : list table_op) : option string :=
  last_key (live_keys log).

(** The key that the last call erased, if the log ends with an eviction
    followed by the store. *)
Definition evicted_key (log : list table_op) : option string :=
  match log with
  | OpAssign _ _ :: OpEraseBegin k :: _ => k
  | _ => None
  end.

(** [evaluate] on each board of a list, in turn. *)
Definition evaluate_all (p : Player) (bs : list Board) : Player :=
  fold_left (fun q b => snd (evaluate q b)) bs p.

(** *** The breadth-first order of [computeOpening]

    The boards that the first loop takes from the front of the queue in its
    first [n] rounds, were it never to stop on the size of the table. *)
Fixpoint bfs_boards (n : nat) (positions : list (Side * Board)) : list Board :=
  match n with
  | O => []
  | S n' =>
      match positions with
      | [] => []
      | curr :: rest =>
          let next := other_side (fst curr) in
          let children :=
            map (fun m => (next, Board_doMove (snd curr) (Some m) (fst curr)))
                (getPossibleMoves (snd curr) (fst curr)) in
          snd curr :: bfs_boards n' (rest ++ children)
      end
  end.

(** The number of distinct keys among the boards of a list. *)
Definition distinct_hashes (p : Player) (bs : list Board) : Z :=
  Z.of_nat (List.length (nodup string_dec (map (board_hash p) bs))).

(** The player in which a miss stores its score: the one after the
    lookup, the mobility count and the eviction. *)
Definition before_store (p : Player) (b : Board) : Player :=
  let n := Z.of_nat (List.length (getPossibleMoves b BLACK)) in
  let q := alloc_moves (- n) (alloc_moves n (log_op (OpFind (board_hash p b)) p)) in
  if 100000 <=? tbl_size (_table p)
  then log_op (OpEraseBegin (tbl_begin_key (_table p)))
              (set_table (tbl_erase_begin (_table p)) q)
  else q.

(** The board on which [doMove] searches: the board of the player after
    the move of the opponent, if one is reported. *)
Definition after_opponent (opponentsMove : option Move) (p : Player) : Player :=
  match opponentsMove with
  | Some _ =>
      set_board (Board_doMove (_board p) opponentsMove (_opponentSide p)) p
  | None => p
  end.

(** What the search needs of its recursive call in order to return. *)
Definition rec_runs
    (rec : Board -> Side -> Z -> Z -> Player -> res (Z * Player)) : Prop :=
  forall nb s a bt q,
    table_int_valued q ->
    exists r q', rec nb s a bt q = Ok (r, q') /\
                 same_game q q' /\ table_int_valued q' /\ in_int r.

(** The choice that the loop has made, for the moves [moves] that it went
    through from [alpha] and [best]: either no score reached [alpha], and
    both are as they were; or the move at the last position [j] whose score
    was not below the running [alpha] is the best, its score is the final
    [alpha], and every later score is below it. *)
Definition root_choice (moves : list (nat * Move)) (alpha : Z)
    (best : option (nat * Move)) (r : RootResult) : Prop :=
  (root_best r = best /\ root_alpha r = alpha /\
   Forall (fun x => x < alpha) (root_scores r))
  \/
  (exists j im,
      nth_error moves j = Some im /\ root_best r = Some im /\
      nth_error (root_scores r) j = Some (root_alpha r) /\
      forall i x, (j < i)%nat -> nth_error (root_scores r) i = Some x ->
                  x < root_alpha r).

(** *** The scores of the moves at the root

    The scores that the helper returns for the moves of the agent on the
    board of [p], in the order of the moves: the call for a move is made
    on the board after the move, for the opponent, with the best score so
    far as [alpha] and [INT_MAX] as [beta], and with the table as the calls
    before it left it. *)
Fixpoint helper_scores
    (rec : Board -> Side -> Z -> Z -> Player -> res (Z * Player))
    (moves : list Move) (alpha : Z) (p : Player) : res (list Z) :=
  match moves with
  | [] => Ok []
  | m :: rest =>
      let* (score, q) :=
        rec (Board_doMove (_board p) (Some m) (_side p)) (_opponentSide p)
            alpha INT_MAX p in
      let* scores := helper_scores rec rest (Z.max alpha score) q in
      Ok (score :: scores)
  end.

(** Players that differ in their bookkeeping only: the log of the table
    and the counts of live boards and moves. *)
Definition same_store (p q : Player) : Prop :=
  same_game p q /\ _table q = _table p.

(** Results that differ in the bookkeeping of the player only. *)
Definition same_result (x y : res (Z * Player)) : Prop :=
  match x, y with
  | Ok (r, p), Ok (r', q) => r = r' /\ same_store p q
  | Undef, Undef => True
  | NoFuel, NoFuel => True
  | _, _ => False
  end.

(** A recursive call of the helper does not look at the bookkeeping. *)
Definition rec_same
    (rec : Board -> Side -> Z -> Z -> Player -> res (Z * Player)) : Prop :=
  forall nb s a bt p q,
    same_store p q -> same_result (rec nb s a bt p) (rec nb s a bt q).

(** *** The search against full minimax *)

(** The players that a search which starts from [p0] goes through. *)
Definition searching (p0 p : Player) : Prop :=
  same_game p0 p /\ table_consistent p.

(** What a call of the helper for the side [s] with the bounds [alpha] and
    [beta] returns, for a position of full minimax value [v].  Where the
    agent moves, the value if it is below [beta], and else a value from
    [beta] up to it.  Where the opponent moves, the value if it is above
    [alpha], and else a value from it up to [alpha]. *)
Definition bounded_result (agent s : Side) (alpha beta v r : Z) : Prop :=
  if Side_eqb s agent
  then (v < beta -> r = v) /\ (beta <= v -> beta <= r <= v)
  else (alpha < v -> r = v) /\ (v <= alpha -> v <= r <= alpha).

(** What the refinement needs of the recursive call of the helper, against
    the recursive call [full] of full minimax. *)
Definition rec_refines (p0 : Player)
    (rec : Board -> Side -> Z -> Z -> Player -> res (Z * Player))
    (full : Board -> Side -> res Z) : Prop :=
  forall nb s a bt q v,
    searching p0 q -> full nb s = Ok v ->
    exists r q', rec nb s a bt q = Ok (r, q') /\ searching p0 q' /\
                 bounded_result (_side p0) s a bt v r.

(** *** The table during the opening precomputation *)

(** The keys of the table of a player. *)
Definition table_keys (p : Player) : list string :=
  map fst (tbl_entries (_table p)).

(** The moves that [opening_body] expands a pair with, and its children. *)
Definition opening_children (curr : Side * Board) : list (Side * Board) :=
  map (fun m => (other_side (fst curr),
                 Board_doMove (snd curr) (Some m) (fst curr)))
      (getPossibleMoves (snd curr) (fst curr)).

(** *** Outcomes *)

(** How a computation on fuel ends. *)
Inductive status : Type := Returned | Undefined | OutOfFuel.

Definition status_of {A} (r : res A) : status :=
  match r with
  | Ok _ => Returned
  | Undef => Undefined
  | NoFuel => OutOfFuel
  end.

(** The score, the live boards and the live moves after a call of the
    helper. *)
Definition helper_outcome (r : res (Z * Player)) : option (Z * Z * Z) :=
  match r with
  | Ok (v, q) => Some (v, live_boards q, live_moves q)
  | _ => None
  end.

(** After [findMinimaxMove]: [alpha], the index of the best move, the
    scores of the moves, the live boards and the live moves. *)
Definition root_outcome (r : res (RootResult * Player))
  : option (Z * option nat * list Z * Z * Z) :=
  match r with
  | Ok (x, q) =>
      Some (root_alpha x, option_map fst (root_best x), root_scores x,
            live_boards q, live_moves q)
  | _ => None
  end.

(** The claim of a first-in-first-out eviction, for a call of [evaluate]:
    the key that the call erases is the live key that was stored first. *)
Definition evicts_oldest (p : Player) (b : Board) : Prop :=
  evicted_key (table_log (snd (evaluate p b))) = oldest_key (table_log p).

End Reference.

(** Tests on what a lookup gives. *)
Definition is_none {A} (o : option A) : bool :=
  match o with
  | None => true
  | Some _ => false
  end.

Definition is_key (o : option string) (k : string) : bool :=
  match o with
  | Some k' => String.eqb k' k
  | None => false
  end.

Definition is_score (o : option Z) (v : Z) : bool :=
  match o with
  | Some v' => Z.eqb v' v
  | None => false
  end.

(** ** Further notions *)

Section ReferenceMore.

Context {BO : BoardOps} {TO : TableOps} {PA : Params}.

(** The white cells of a board, as [evaluate] computes them. *)
Definition white_cells (b : Board) : N :=
  N.land (taken b) (bitset_not (black b)).

(** The heuristic as the comments of [evaluate] describe it, over the
    integers and for Black: the coin count, the edges and the corners, each
    as black minus white. *)
Definition heuristic_value (b : Board) : Z :=
  (popcount (black b) - popcount (white_cells b))
  + EDGEWEIGHT * (popcount (N.land (black b) EDGES)
                  - popcount (N.land (white_cells b) EDGES))
  + CORNERWEIGHT * (popcount (N.land (black b) CORNERS)
                    - popcount (N.land (white_cells b) CORNERS)).

(** Equality of the low 32 bits. *)
Definition eq32 (a b : Z) : Prop := a mod 2 ^ 32 = b mod 2 ^ 32.

(** The depth at which the deepening loop of [doMove] searches in its
    round [i] (from 0): 2 in testing mode, [MINIMAXDEPTH + i] otherwise. *)
Definition round_depth (p : Player) (i : nat) : Z :=
  if testingMinimax p then 2 else MINIMAXDEPTH + Z.of_nat i.

(** [k] searches one after the other from the player [p]: the search of
    round [i] (from 0) at the depth [round_depth p i], each on the player
    as the search before it left it.  The result is the move of the last
    search, [NULL] without a search, and the player after it. *)
Fixpoint searches (fuel : nat) (p : Player) (k : nat)
  : res (option Move * Player) :=
  match k with
  | O => Ok (None, p)
  | S k' =>
      let* (m, q) := searches fuel p k' in
      findMinimaxMove fuel (round_depth p k') q
  end.

(** A move that [findMinimaxMove] may return on a board: [NULL] without a
    legal move, one of the legal moves otherwise. *)
Definition legal_choice (b : Board) (s : Side) (m : option Move) : Prop :=
  match m with
  | None => getPossibleMoves b s = []
  | Some mv => In mv (getPossibleMoves b s)
  end.

(** The table of a player as the constructor and the searches keep it. *)
Definition table_ok (p : Player) : Prop :=
  table_consistent p /\ table_int_valued p /\ tbl_size (_table p) <= 100000.

(** A recursive call of the helper keeps the property [I] of players. *)
Definition rec_keeps (I : Player -> Prop)
    (rec : Board -> Side -> Z -> Z -> Player -> res (Z * Player)) : Prop :=
  forall nb s a bt q r q', I q -> rec nb s a bt q = Ok (r, q') -> I q'.

(** A recursive call of the helper releases no more boards and moves than
    it allocates. *)
Definition rec_heap
    (rec : Board -> Side -> Z -> Z -> Player -> res (Z * Player)) : Prop :=
  forall nb s a bt q r q',
    rec nb s a bt q = Ok (r, q') ->
    live_boards q <= live_boards q' /\ live_moves q <= live_moves q'.

(** The number of moves that [getPossibleMoves] returns in the first [n]
    rounds of the breadth-first order of [computeOpening]. *)
Fixpoint bfs_moves (n : nat) (positions : list (Side * Board)) : Z :=
  match n with
  | O => 0
  | S n' =>
      match positions with
      | [] => 0
      | curr :: rest =>
          Z.of_nat (List.length (getPossibleMoves (snd curr) (fst curr)))
          + bfs_moves n' (rest ++ opening_children curr)
      end
  end.

(** The number of distinct keys among the keys of the table of [p] and
    the keys of the boards of a list. *)
Definition keys_with (p : Player) (bs : list Board) : Z :=
  Z.of_nat (List.length
              (nodup string_dec (table_keys p ++ map (board_hash p) bs))).

(** The move that a search has returned. *)
Definition chosen_move {A : Type} (r : res (option A * Player))
  : option (option A) :=
  match r with
  | Ok (m, _) => Some m
  | _ => None
  end.

(** The sides and the mode of a player. *)
Definition same_setup (p q : Player) : Prop :=
  testingMinimax q = testingMinimax p /\ _side q = _side p /\
  _opponentSide q = _opponentSide p.

End ReferenceMore.

(** ** An ordered map as the table

    [std::map<string, int>]: the entries are kept in the ascending order of
    their keys, which [std::string] compares byte by byte, and [begin()] is
    the entry of the least key. *)
Module StdMap.

Definition key_lt (a b : string) : bool :=
  match String_as_OT.compare a b with
  | Lt => true
  | _ => false
  end.

Fixpoint find (k : string) (l : list (string * Z)) : option Z :=
  match l with
  | [] => None
  | (k', v) :: r =>
      match String_as_OT.compare k k' with
      | Eq => Some v
      | Lt => None
      | Gt => find k r
      end
  end.

Fixpoint insert (k : string) (v : Z) (l : list (string * Z))
  : list (string * Z) :=
  match l with
  | [] => [(k, v)]
  | (k', v') :: r =>
      match String_as_OT.compare k k' with
      | Eq => (k, v) :: r
      | Lt => (k, v) :: l
      | Gt => (k', v') :: insert k v r
      end
  end.

Fixpoint sorted (l : list (string * Z)) : bool :=
  match l with
  | [] => true
  | (k, _) :: r =>
      match r with
      | [] => true
      | (k', _) :: _ => key_lt k k'
      end && sorted r
  end.

(** A list of keys in strictly descending order. *)
Fixpoint descending (l : list string) : bool :=
  match l with
  | [] => true
  | k :: r =>
      match r with
      | [] => true
      | k' :: _ => key_lt k' k
      end && descending r
  end.

Lemma key_lt_iff a b : key_lt a b = true <-> String_as_OT.lt a b.
Proof.
  unfold key_lt, String_as_OT.lt.
  destruct (String_as_OT.compare a b); split; congruence.
Qed.

Lemma lt_trans a b c :
  String_as_OT.lt a b -> String_as_OT.lt b c -> String_as_OT.lt a c.
Proof. apply String_as_OT.lt_strorder. Qed.

Lemma lt_irrefl a : ~ String_as_OT.lt a a.
Proof. apply String_as_OT.lt_strorder. Qed.

Lemma compare_gt a b :
  String_as_OT.compare a b = Gt -> String_as_OT.lt b a.
Proof.
  intros H. destruct (String_as_OT.compare_spec a b); congruence.
Qed.

Lemma compare_eq a b : String_as_OT.compare a b = Eq -> a = b.
Proof.
  intros H. destruct (String_as_OT.compare_spec a b); congruence.
Qed.

Lemma compare_refl a : String_as_OT.compare a a = Eq.
Proof.
  destruct (String_as_OT.compare_spec a a) as [_|H|H]; auto;
    destruct (lt_irrefl _ H).
Qed.

Lemma sorted_tail x l : sorted (x :: l) = true -> sorted l = true.
Proof.
  destruct x as [k v]. cbn [sorted]. intros H.
  apply andb_true_iff in H. tauto.
Qed.

Lemma sorted_above k v l :
  sorted ((k, v) :: l) = true ->
  forall k' v', In (k', v') l -> String_as_OT.lt k k'.
Proof.
  revert k v. induction l as [|[k1 v1] r IH]; intros k v Hs k' v' Hin.
  - destruct Hin.
  - pose proof (sorted_tail _ _ Hs) as Hr.
    cbn [sorted] in Hs. apply andb_true_iff in Hs. destruct Hs as [Hk _].
    apply key_lt_iff in Hk.
    destruct Hin as [E|Hin].
    + inversion E; subst. exact Hk.
    + eapply lt_trans; [exact Hk|]. exact (IH k1 v1 Hr _ _ Hin).
Qed.

Lemma sorted_insert k v l : sorted l = true -> sorted (insert k v l) = true.
Proof.
  induction l as [|[k1 v1] r IH]; intros Hs.
  - reflexivity.
  - cbn [insert].
    destruct (String_as_OT.compare k k1) eqn:C.
    + apply compare_eq in C. subst k1. exact Hs.
    + change (key_lt k k1 && sorted ((k1, v1) :: r) = true).
      rewrite Hs, andb_true_r. unfold key_lt. now rewrite C.
    + pose proof (IH (sorted_tail _ _ Hs)) as Hi.
      apply compare_gt in C.
      cbn [sorted] in Hs |- *. apply andb_true_iff in Hs.
      destruct Hs as [Hh _].
      apply andb_true_iff; split; [|exact Hi].
      destruct r as [|[k2 v2] r']; cbn [insert].
      * now apply key_lt_iff.
      * destruct (String_as_OT.compare k k2); try exact Hh;
          now apply key_lt_iff.
Qed.

Lemma find_In l : sorted l = true ->
  forall k v, find k l = Some v <-> In (k, v) l.
Proof.
  induction l as [|[k1 v1] r IH]; intros Hs k v.
  - cbn. split; [discriminate | tauto].
  - cbn [find].
    pose proof (sorted_above _ _ _ Hs) as Hab.
    destruct (String_as_OT.compare k k1) eqn:C.
    + apply compare_eq in C. subst k1. split.
      * intros E. inversion E. now left.
      * intros [E|Hin]; [now inversion E|].
        destruct (lt_irrefl k). eapply Hab; eauto.
    + split; [discriminate|].
      intros [E|Hin].
      * inversion E; subst. rewrite compare_refl in C. discriminate.
      * exfalso. apply (lt_irrefl k). eapply lt_trans; [exact C|].
        eapply Hab; eauto.
    + rewrite (IH (sorted_tail _ _ Hs)). split; [now right|].
      intros [E|Hin]; [|exact Hin].
      inversion E; subst. rewrite compare_refl in C. discriminate.
Qed.

Lemma keys_NoDup l : sorted l = true -> NoDup (map fst l).
Proof.
  induction l as [|[k1 v1] r IH]; intros Hs; cbn [map fst].
  - constructor.
  - constructor; [|exact (IH (sorted_tail _ _ Hs))].
    intros Hin. apply in_map_iff in Hin. destruct Hin as [[k' v'] [E Hin]].
    cbn in E. subst k'. destruct (lt_irrefl k1).
    eapply sorted_above; eauto.
Qed.

Lemma descending_below k l :
  descending (k :: l) = true -> forall k', In k' l -> String_as_OT.lt k' k.
Proof.
  revert k. induction l as [|k1 r IH]; intros k Hd k' Hin.
  - destruct Hin.
  - cbn [descending] in Hd. apply andb_true_iff in Hd. destruct Hd as [Hk Hr].
    apply key_lt_iff in Hk.
    destruct Hin as [<-|Hin]; [exact Hk|].
    eapply lt_trans; [|exact Hk]. exact (IH k1 Hr k' Hin).
Qed.

Lemma descending_NoDup l : descending l = true -> NoDup l.
Proof.
  induction l as [|k r IH]; intros Hd; constructor.
  - intros Hin. apply (lt_irrefl k). eapply descending_below; eauto.
  - apply IH. cbn [descending] in Hd. apply andb_true_iff in Hd. tauto.
Qed.

Lemma insert_new k v l :
  find k l = None -> Permutation (insert k v l) ((k, v) :: l).
Proof.
  induction l as [|[k1 v1] r IH]; cbn [find insert]; intros Hf.
  - apply Permutation_refl.
  - destruct (String_as_OT.compare k k1).
    + discriminate.
    + apply Permutation_refl.
    + eapply Permutation_trans; [apply perm_skip, IH, Hf | apply perm_swap].
Qed.

Lemma sorted_tl l : sorted l = true -> sorted (tl l) = true.
Proof.
  destruct l as [|x r]; [auto | apply sorted_tail].
Qed.

(** The number of entries after [insert] and after [tl]. *)
Definition size_insert (k : string) (l : list (string * Z)) (n : Z) : Z :=
  match find k l with
  | Some _ => n
  | None => n + 1
  end.

Definition size_tl (l : list (string * Z)) (n : Z) : Z :=
  match l with
  | [] => n
  | _ :: _ => n - 1
  end.

Lemma size_insert_ok k v l n :
  n = Z.of_nat (List.length l) ->
  size_insert k l n = Z.of_nat (List.length (insert k v l)).
Proof.
  intros ->. unfold size_insert.
  induction l as [|[k1 v1] r IH]; cbn [find insert].
  - reflexivity.
  - destruct (String_as_OT.compare k k1); cbn [List.length]; try lia.
    destruct (find k r); cbn [List.length] in *; lia.
Qed.

Lemma size_tl_ok l n :
  n = Z.of_nat (List.length l) -> size_tl l n = Z.of_nat (List.length (tl l)).
Proof.
  intros ->. destruct l; cbn [size_tl tl List.length]; lia.
Qed.

(** The map: its entries in order and its size. *)
Record t : Type := mk {
  items : list (string * Z);
  size : Z;
  items_sorted : sorted items = true;
  size_ok : size = Z.of_nat (List.length items)
}.

Definition empty : t := mk [] 0 eq_refl eq_refl.

Definition assign (m : t) (k : string) (v : Z) : t :=
  mk (insert k v (items m)) (size_insert k (items m) (size m))
     (sorted_insert k v _ (items_sorted m))
     (size_insert_ok k v _ _ (size_ok m)).

Definition erase_begin (m : t) : t :=
  mk (tl (items m)) (size_tl (items m) (size m))
     (sorted_tl _ (items_sorted m))
     (size_tl_ok _ _ (size_ok m)).

End StdMap.

#[export] Instance StdMap_table : TableOps := {
  Table := StdMap.t;
  tbl_empty := StdMap.empty;
  tbl_entries := StdMap.items;
  tbl_find := fun m k => StdMap.find k (StdMap.items m);
  tbl_size := StdMap.size;
  tbl_erase_begin := StdMap.erase_begin;
  tbl_assign := StdMap.assign;
  tbl_entries_empty := eq_refl;
  tbl_size_spec := StdMap.size_ok;
  tbl_keys_NoDup := fun m => StdMap.keys_NoDup _ (StdMap.items_sorted m);
  tbl_find_In := fun m => StdMap.find_In _ (StdMap.items_sorted m);
  tbl_entries_erase_begin := fun m => eq_refl;
  tbl_entries_assign_new := fun m k v => StdMap.insert_new k v (StdMap.items m)
}.

(** ** Game trees as boards

    A board that carries its own game tree: the two cell sets of the
    position and, for each move of the side to move, the position that the
    move leads to.  A move is its index among the moves of its position.
    Every finite unfolding of a board collaborator is such a tree. *)
#[local] Unset Elimination Schemes.
Inductive gtree : Type :=
| GNode (blk wht : N) (kids : list gtree).
#[local] Set Elimination Schemes.

Module TreeBoard.

(** The 64 cells of a set. *)
Definition cells (x : N) : N := N.land x (N.ones 64).

Definition black (t : gtree) : N :=
  match t with GNode b _ _ => cells b end.

Definition taken (t : gtree) : N :=
  match t with GNode b w _ => cells (N.lor b w) end.

Definition count (t : gtree) (s : Side) : Z :=
  match s with
  | BLACK => popcount (black t)
  | WHITE => popcount (N.ldiff (taken t) (black t))
  end.

Definition kids (t : gtree) : list gtree :=
  match t with GNode _ _ l => l end.

Definition moves (t : gtree) (s : Side) : list nat :=
  seq 0 (List.length (kids t)).

Definition doMove (t : gtree) (m : option nat) (s : Side) : gtree :=
  match m with
  | Some i => nth i (kids t) t
  | None => t
  end.

Lemma cells_range x : (cells x < 2 ^ 64)%N.
Proof.
  unfold cells. rewrite N.land_ones. apply N.mod_lt. discriminate.
Qed.

Lemma black_taken t : N.land (black t) (taken t) = black t.
Proof.
  destruct t as [b w l]. unfold black, taken, cells.
  apply N.bits_inj. intros i.
  rewrite !N.land_spec, N.lor_spec.
  destruct (N.testbit b i), (N.testbit w i), (N.testbit (N.ones 64) i);
    reflexivity.
Qed.

Lemma popcount_pos_size p : 1 <= popcount_pos p <= Z.pos (Pos.size p).
Proof.
  induction p as [q IH|q IH|]; cbn [popcount_pos Pos.size]; lia.
Qed.

Lemma popcount_range n : (n < 2 ^ 64)%N -> 0 <= popcount n <= 64.
Proof.
  intros Hn. destruct n as [|p]; cbn [popcount]; [lia|].
  pose proof (popcount_pos_size p) as Hp.
  assert (Hs : (N.size (Npos p) < 65)%N).
  { apply (N.pow_lt_mono_r_iff 2); [reflexivity|].
    eapply N.le_lt_trans; [apply N.size_le|].
    rewrite N.succ_double_spec.
    change (2 ^ 65)%N with (2 * 2 ^ 64)%N. lia. }
  cbn [N.size] in Hs. lia.
Qed.

Lemma count_range t s : 0 <= count t s <= 64.
Proof.
  destruct s; cbn [count]; apply popcount_range.
  - destruct t; apply cells_range.
  - eapply N.le_lt_trans; [apply N.ldiff_le_l|].
    destruct t; apply cells_range.
Qed.

End TreeBoard.

(** The tree boards, for a game that starts at [root]. *)
Definition TreeBoard_ops (root : gtree) : BoardOps := {|
  Board := gtree;
  Move := nat;
  Board_new := root;
  black := TreeBoard.black;
  taken := TreeBoard.taken;
  count := TreeBoard.count;
  getPossibleMoves := TreeBoard.moves;
  Board_doMove := TreeBoard.doMove;
  black_range := fun t => match t with GNode b _ _ => TreeBoard.cells_range b end;
  taken_range := fun t => match t with GNode b w _ => TreeBoard.cells_range (N.lor b w) end;
  black_taken := TreeBoard.black_taken;
  count_range := TreeBoard.count_range
|}.

(** A leaf position. *)
Definition leaf (blk wht : N) : gtree := GNode blk wht [].

(** Sample values for the constants of the headers. *)
Definition sample_params : Params := {|
  MINIMAXDEPTH := 3;
  EDGEWEIGHT := 5;
  CORNERWEIGHT := 20;
  CLOCKS_PER_SEC := 1000000
|}.

(** ** Sample positions *)

Section SamplePositions.

#[local] Instance sample_ops : BoardOps := TreeBoard_ops (leaf 0 0).
#[local] Existing Instance StdMap_table.
#[local] Existing Instance sample_params.

(** A position with [n] black pieces on inner cells and no white piece. *)
Definition inner_blacks (n : N) (kids : list gtree) : gtree :=
  GNode (N.shiftl (N.ones n) 9) 0 kids.

(** Black to move has two moves.  After the first, the replies of White
    lead to 5 and 6 black pieces; after the second, to 3 and 9. *)
Definition reply_A : gtree := inner_blacks 4 [inner_blacks 5 []; inner_blacks 6 []].
Definition reply_B : gtree := inner_blacks 4 [inner_blacks 3 []; inner_blacks 9 []].
Definition two_moves : gtree := inner_blacks 4 [reply_A; reply_B].

(** As [two_moves], with replies to the second move that lead to 5 and 2
    black pieces. *)
Definition reply_T : gtree := inner_blacks 4 [inner_blacks 5 []; inner_blacks 2 []].
Definition tied_moves : gtree := inner_blacks 4 [reply_A; reply_T].

(** Black to move has two moves.  Three plies on, the first leads to 5
    black pieces and ends there, the second to 3; four plies on, the second
    leads to 6. *)
Definition line_A : gtree :=
  inner_blacks 4 [inner_blacks 4 [inner_blacks 5 []]].
Definition line_B : gtree :=
  inner_blacks 4 [inner_blacks 4 [inner_blacks 3 [inner_blacks 6 []]]].
Definition flip : gtree := inner_blacks 4 [line_A; line_B].

(** The agent plays Black on a board, with the table or in testing mode. *)
Definition black_player (b : gtree) : Player := set_board b (Player_init BLACK).
Definition black_tester (b : gtree) : Player := set_testing true (black_player b).

(** A clock that advances by one tick from one reading to the next. *)
Definition ticking (k : nat) : Z := Z.of_nat k.

(** A clock that advances by 1500 ticks from one reading to the next. *)
Definition slow_clock (k : nat) : Z := 1500 * Z.of_nat k.

(** *** A table at its bound *)

Fixpoint countdown (n : nat) (x : N) : list gtree :=
  match n with
  | O => []
  | S k => leaf x 0 :: countdown k (N.pred x)
  end.

(** The 100000 boards whose black cells are the bits of 199999, 199998,
    ..., 100000, in this order, and the player that has evaluated them. *)
Definition filling_boards : list gtree := countdown (N.to_nat 100000) 199999.
Definition full_player : Player := evaluate_all (Player_init BLACK) filling_boards.

(** A board that [full_player] has not seen. *)
Definition next_board : gtree := leaf 200000 0.

(** *** Games for the opening precomputation *)

(** The game of one position: the player that the constructor makes on
    the board [leaf 0 0], before [computeOpening]. *)
Definition lone_player : Player := Player_init BLACK.

(** A game in which each position has one move, 30001 positions long:
    the black cells of its positions are the bits of 199999, 199998, ... *)
Fixpoint chain (n : nat) (x : N) : gtree :=
  match n with
  | O => leaf x 0
  | S k => GNode x 0 [chain k (N.pred x)]
  end.

Definition long_game : gtree := chain (N.to_nat 30000) 199999.
Definition long_player : Player := black_player long_game.
Definition opening_rounds : nat := N.to_nat 25000.

End SamplePositions.

(** * Properties *)

(** ** Machine integers *)

Lemma to_int_range z : in_int (to_int z).
Proof.
  unfold in_int, to_int, INT_MIN, INT_MAX, two_p31.
  change mask32 with (Z.ones 32). rewrite Z.land_ones by lia.
  pose proof (Z.mod_pos_bound (z + 2147483648) (2 ^ 32) ltac:(lia)). lia.
Qed.

Lemma to_int_id z : in_int z -> to_int z = z.
Proof.
  unfold in_int, to_int, INT_MIN, INT_MAX, two_p31. intros H.
  change mask32 with (Z.ones 32). rewrite Z.land_ones by lia.
  rewrite Z.mod_small; lia.
Qed.

Lemma in_int_INT_MIN : in_int INT_MIN.
Proof. unfold in_int, INT_MIN, INT_MAX, two_p31. lia. Qed.

Lemma in_int_INT_MAX : in_int INT_MAX.
Proof. unfold in_int, INT_MIN, INT_MAX, two_p31. lia. Qed.

Lemma Side_eqb_eq a b : Side_eqb a b = true <-> a = b.
Proof. destruct a, b; cbn; split; congruence. Qed.

Lemma Side_eqb_other s : Side_eqb (other_side s) s = false.
Proof. now destruct s. Qed.

Lemma Side_eqb_refl s : Side_eqb s s = true.
Proof. now destruct s. Qed.

(** ** Keys *)

Fixpoint no_comma (s : string) : Prop :=
  match s with
  | EmptyString => True
  | String c r => c <> ","%char /\ no_comma r
  end.

Lemma to_string_no_comma n : no_comma (to_string n).
Proof.
  unfold to_string. induction (N.to_uint n); cbn; auto;
    split; auto; discriminate.
Qed.

Lemma to_string_inj a b : to_string a = to_string b -> a = b.
Proof.
  unfold to_string. intros H.
  apply (f_equal NilEmpty.uint_of_string) in H.
  rewrite !NilEmpty.usu in H. inversion H as [E].
  rewrite <- (DecimalN.Unsigned.of_to a), <- (DecimalN.Unsigned.of_to b).
  now rewrite E.
Qed.

Lemma split_at_comma s1 : forall s2 r1 r2,
  no_comma s1 -> no_comma s2 ->
  (s1 ++ String "," r1 = s2 ++ String "," r2)%string ->
  s1 = s2 /\ r1 = r2.
Proof.
  induction s1 as [|c s1 IH]; intros [|d s2] r1 r2 H1 H2 E; cbn in *.
  - inversion E. auto.
  - inversion E; subst. destruct H2 as [H2 _]. now destruct H2.
  - inversion E; subst. destruct H1 as [H1 _]. now destruct H1.
  - inversion E; subst. destruct H1 as [_ H1], H2 as [_ H2].
    destruct (IH _ _ _ H1 H2 H3) as [-> ->]. auto.
Qed.

Lemma make_hash_inj a t a' t' :
  make_hash a t = make_hash a' t' -> a = a' /\ t = t'.
Proof.
  unfold make_hash. cbn [append]. intros E.
  apply split_at_comma in E; try apply to_string_no_comma.
  destruct E as [E1 E2]. inversion E2.
  split; apply to_string_inj; assumption.
Qed.

(** ** Bitsets *)

Lemma testbit_high a i : (a < 2 ^ 64)%N -> (64 <= i)%N -> N.testbit a i = false.
Proof.
  intros Ha Hi. rewrite <- (N.mod_small a (2 ^ 64)) by exact Ha.
  now apply N.mod_pow2_bits_high.
Qed.

(** The black cells are the taken cells that are not white. *)
Lemma black_of_white bl tk :
  (bl < 2 ^ 64)%N -> (tk < 2 ^ 64)%N -> N.land bl tk = bl ->
  bl = N.ldiff tk (N.land (bitset_not bl) tk).
Proof.
  intros Hb Ht Hs. apply N.bits_inj. intros i.
  rewrite N.ldiff_spec, N.land_spec.
  change (bitset_not bl) with (N.lnot bl 64).
  assert (Hi : N.testbit bl i = N.testbit bl i && N.testbit tk i).
  { now rewrite <- N.land_spec, Hs. }
  destruct (N.lt_ge_cases i 64) as [L|G].
  - rewrite N.lnot_spec_low by exact L.
    destruct (N.testbit bl i), (N.testbit tk i); cbn in *; congruence.
  - rewrite (testbit_high bl i Hb G), (testbit_high tk i Ht G). reflexivity.
Qed.

(** ** The table interface *)

Section TableFacts.

Context {TO : TableOps}.

Lemma option_ext {A} (o1 o2 : option A) :
  (forall v, o1 = Some v <-> o2 = Some v) -> o1 = o2.
Proof.
  intros H. destruct o1 as [a|], o2 as [b|]; auto.
  - now apply H.
  - symmetry. now apply H.
  - now apply H.
Qed.

Lemma tbl_find_key_In t k v :
  tbl_find t k = Some v -> In k (map fst (tbl_entries t)).
Proof.
  intros H. apply tbl_find_In in H.
  apply in_map_iff. now exists (k, v).
Qed.

Lemma tbl_find_None t k :
  tbl_find t k = None <-> ~ In k (map fst (tbl_entries t)).
Proof.
  split.
  - intros Hn Hin. apply in_map_iff in Hin. destruct Hin as [[k' v] [E Hin]].
    cbn in E. subst k'. apply tbl_find_In in Hin. congruence.
  - intros Hn. destruct (tbl_find t k) as [v|] eqn:E; auto.
    destruct Hn. eapply tbl_find_key_In; eauto.
Qed.

Lemma tbl_size_nonneg t : 0 <= tbl_size t.
Proof. rewrite tbl_size_spec. lia. Qed.

Lemma tbl_size_empty : tbl_size tbl_empty = 0.
Proof. now rewrite tbl_size_spec, tbl_entries_empty. Qed.

Lemma tbl_find_empty k : tbl_find tbl_empty k = None.
Proof.
  apply tbl_find_None. now rewrite tbl_entries_empty.
Qed.

Lemma tbl_size_assign_new t k v :
  tbl_find t k = None -> tbl_size (tbl_assign t k v) = tbl_size t + 1.
Proof.
  intros H. rewrite !tbl_size_spec.
  rewrite (Permutation_length (tbl_entries_assign_new t k v H)).
  cbn [List.length]. lia.
Qed.

Lemma tbl_size_erase_begin t :
  0 < tbl_size t -> tbl_size (tbl_erase_begin t) = tbl_size t - 1.
Proof.
  rewrite !tbl_size_spec, tbl_entries_erase_begin.
  destruct (tbl_entries t); cbn [List.length tl]; lia.
Qed.

Lemma tbl_find_erase_begin t k v :
  tbl_find (tbl_erase_begin t) k = Some v -> tbl_find t k = Some v.
Proof.
  rewrite !tbl_find_In, tbl_entries_erase_begin.
  destruct (tbl_entries t); cbn [tl]; auto. now right.
Qed.

Lemma tbl_find_erase_begin_None t k :
  tbl_find t k = None -> tbl_find (tbl_erase_begin t) k = None.
Proof.
  intros H. destruct (tbl_find (tbl_erase_begin t) k) eqn:E; auto.
  apply tbl_find_erase_begin in E. congruence.
Qed.

Lemma tbl_find_assign_iff t k v k' v' :
  tbl_find t k = None ->
  (tbl_find (tbl_assign t k v) k' = Some v' <->
   (k' = k /\ v' = v) \/ tbl_find t k' = Some v').
Proof.
  intros H. rewrite !tbl_find_In. split.
  - intros Hin.
    apply (Permutation_in _ (tbl_entries_assign_new t k v H)) in Hin.
    destruct Hin as [E|Hin]; [left; inversion E; auto | now right].
  - intros Hc.
    apply (Permutation_in _ (Permutation_sym (tbl_entries_assign_new t k v H))).
    destruct Hc as [[-> ->]|Hin]; [now left | now right].
Qed.

Lemma tbl_find_assign_same t k v :
  tbl_find t k = None -> tbl_find (tbl_assign t k v) k = Some v.
Proof.
  intros H. apply tbl_find_assign_iff; auto.
Qed.

Lemma tbl_find_assign_other t k v k' :
  tbl_find t k = None -> k' <> k ->
  tbl_find (tbl_assign t k v) k' = tbl_find t k'.
Proof.
  intros H Hk. apply option_ext. intros v'.
  rewrite tbl_find_assign_iff by exact H. intuition congruence.
Qed.

Lemma tbl_keys_assign_new t k v :
  tbl_find t k = None ->
  Permutation (map fst (tbl_entries (tbl_assign t k v)))
              (k :: map fst (tbl_entries t)).
Proof.
  intros H. apply (Permutation_map fst (tbl_entries_assign_new t k v H)).
Qed.

End TableFacts.

(** ** The evaluator *)

Section EvaluateFacts.

Context {BO : BoardOps} {TO : TableOps} {PA : Params}.

Lemma same_game_refl p : same_game p p.
Proof. repeat split. Qed.

Lemma same_game_trans p q r : same_game p q -> same_game q r -> same_game p r.
Proof.
  unfold same_game. intros (A & B & C & D) (A' & B' & C' & D').
  repeat split; congruence.
Qed.

Lemma board_hash_same_game p q b :
  same_game p q -> board_hash q b = board_hash p b.
Proof. intros (_ & E & _). unfold board_hash. now rewrite E. Qed.

Lemma heuristic_score_same_game p q b :
  same_game p q -> heuristic_score q b = heuristic_score p b.
Proof. intros (_ & E & _). unfold heuristic_score. now rewrite E. Qed.

Lemma static_value_same_game p q b :
  same_game p q -> static_value q b = static_value p b.
Proof.
  intros H. pose proof (heuristic_score_same_game _ _ b H) as Hh.
  destruct H as (T & S & O & _).
  unfold static_value, material_score. now rewrite T, S, O, Hh.
Qed.

Lemma heuristic_score_in_int p b : in_int (heuristic_score p b).
Proof.
  unfold heuristic_score.
  destruct (_side p); unfold int_sub_assign; apply to_int_range.
Qed.

Lemma material_score_exact p b :
  material_score p b = count b (_side p) - count b (_opponentSide p).
Proof.
  unfold material_score. apply to_int_id.
  pose proof (count_range b (_side p)).
  pose proof (count_range b (_opponentSide p)).
  unfold in_int, INT_MIN, INT_MAX, two_p31. lia.
Qed.

Lemma static_value_in_int p b : in_int (static_value p b).
Proof.
  unfold static_value. destruct (testingMinimax p).
  - apply to_int_range.
  - apply heuristic_score_in_int.
Qed.

(** Boards stored under one key have one heuristic score. *)
Lemma heuristic_score_of_hash p b b' :
  board_hash p b = board_hash p b' ->
  heuristic_score p b = heuristic_score p b'.
Proof.
  unfold board_hash, heuristic_score. intros E.
  assert (Hbt : black b = black b' /\ taken b = taken b').
  { destruct (_side p); apply make_hash_inj in E; destruct E as [E1 E2].
    - auto.
    - split; [|exact E2].
      rewrite (black_of_white (black b) (taken b)
                 (black_range b) (taken_range b) (black_taken b)).
      rewrite (black_of_white (black b') (taken b')
                 (black_range b') (taken_range b') (black_taken b')).
      now rewrite E1, E2. }
  destruct Hbt as [-> ->]. reflexivity.
Qed.

(** In testing mode the evaluator leaves the player as it is. *)
Lemma evaluate_testing p b :
  testingMinimax p = true -> evaluate p b = (material_score p b, p).
Proof. intros T. unfold evaluate. now rewrite T. Qed.

(** A hit: two operations on the table, both reads. *)
Lemma evaluate_hit p b v :
  testingMinimax p = false ->
  tbl_find (_table p) (board_hash p b) = Some v ->
  evaluate p b =
  (v, log_op (OpIndex (board_hash p b)) (log_op (OpFind (board_hash p b)) p)).
Proof.
  intros T F. unfold evaluate. rewrite T. cbn. now rewrite F.
Qed.

Lemma evaluate_miss p b :
  testingMinimax p = false ->
  tbl_find (_table p) (board_hash p b) = None ->
  evaluate p b =
  (heuristic_score p b,
   log_op (OpAssign (board_hash p b) (heuristic_score p b))
          (set_table (tbl_assign (_table (before_store p b)) (board_hash p b)
                                 (heuristic_score p b))
                     (before_store p b))).
Proof.
  intros T F. unfold evaluate, before_store. rewrite T. cbn. rewrite F.
  destruct (100000 <=? tbl_size (_table p)); reflexivity.
Qed.

Lemma before_store_same_game p b : same_game p (before_store p b).
Proof.
  unfold before_store.
  destruct (100000 <=? tbl_size (_table p)); repeat split.
Qed.

Lemma before_store_table p b :
  _table (before_store p b) =
  if 100000 <=? tbl_size (_table p) then tbl_erase_begin (_table p)
  else _table p.
Proof.
  unfold before_store. now destruct (100000 <=? tbl_size (_table p)).
Qed.

Lemma before_store_find_None p b k :
  tbl_find (_table p) k = None -> tbl_find (_table (before_store p b)) k = None.
Proof.
  rewrite before_store_table.
  destruct (100000 <=? tbl_size (_table p)); auto.
  apply tbl_find_erase_begin_None.
Qed.

Lemma before_store_find_Some p b k v :
  tbl_find (_table (before_store p b)) k = Some v ->
  tbl_find (_table p) k = Some v.
Proof.
  rewrite before_store_table.
  destruct (100000 <=? tbl_size (_table p)); auto.
  apply tbl_find_erase_begin.
Qed.

Lemma before_store_heap p b :
  live_boards (before_store p b) = live_boards p /\
  live_moves (before_store p b) = live_moves p.
Proof.
  unfold before_store.
  destruct (100000 <=? tbl_size (_table p)); cbn; split; lia.
Qed.

(** The three ways in which a call of the evaluator goes. *)
Lemma evaluate_cases p b :
  (testingMinimax p = true /\ evaluate p b = (material_score p b, p)) \/
  (exists v, testingMinimax p = false /\
             tbl_find (_table p) (board_hash p b) = Some v /\
             evaluate p b =
             (v, log_op (OpIndex (board_hash p b))
                        (log_op (OpFind (board_hash p b)) p))) \/
  (testingMinimax p = false /\
   tbl_find (_table p) (board_hash p b) = None /\
   evaluate p b =
   (heuristic_score p b,
    log_op (OpAssign (board_hash p b) (heuristic_score p b))
           (set_table (tbl_assign (_table (before_store p b)) (board_hash p b)
                                  (heuristic_score p b))
                      (before_store p b)))).
Proof.
  destruct (testingMinimax p) eqn:T.
  - left. split; auto. now apply evaluate_testing.
  - right. destruct (tbl_find (_table p) (board_hash p b)) as [v|] eqn:F.
    + left. exists v. repeat split; auto. now apply evaluate_hit.
    + right. repeat split; auto. now apply evaluate_miss.
Qed.

Lemma evaluate_same_game p b : same_game p (snd (evaluate p b)).
Proof.
  destruct (evaluate_cases p b) as [[_ E]|[(v & _ & _ & E)|(_ & _ & E)]];
    rewrite E; cbn [snd].
  - apply same_game_refl.
  - repeat split.
  - destruct (before_store_same_game p b) as (A & B & C & D).
    repeat split; assumption.
Qed.

Lemma evaluate_heap p b :
  live_boards (snd (evaluate p b)) = live_boards p /\
  live_moves (snd (evaluate p b)) = live_moves p.
Proof.
  destruct (evaluate_cases p b) as [[_ E]|[(v & _ & _ & E)|(_ & _ & E)]];
    rewrite E; cbn [snd]; auto.
  apply (before_store_heap p b).
Qed.

Lemma evaluate_int_valued p b :
  table_int_valued p ->
  in_int (fst (evaluate p b)) /\ table_int_valued (snd (evaluate p b)).
Proof.
  intros Hv.
  destruct (evaluate_cases p b) as [[_ E]|[(v & _ & F & E)|(_ & F & E)]];
    rewrite E; cbn [fst snd].
  - split; [apply to_int_range | exact Hv].
  - split; [exact (Hv _ _ F) | exact Hv].
  - split; [apply heuristic_score_in_int|].
    intros k v. cbn.
    rewrite tbl_find_assign_iff by (now apply before_store_find_None).
    intros [[_ ->]|Hf]; [apply heuristic_score_in_int|].
    apply before_store_find_Some in Hf. exact (Hv _ _ Hf).
Qed.

Lemma evaluate_consistent p b :
  table_consistent p ->
  fst (evaluate p b) = static_value p b /\
  table_consistent (snd (evaluate p b)).
Proof.
  intros Hc. unfold static_value.
  destruct (evaluate_cases p b) as [[T E]|[(v & T & F & E)|(T & F & E)]];
    rewrite E, T; cbn [fst snd].
  - split; [reflexivity | exact Hc].
  - split; [exact (Hc _ _ F) | exact Hc].
  - split; [reflexivity|].
    intros b' v.
    change (tbl_find (tbl_assign (_table (before_store p b)) (board_hash p b)
                                 (heuristic_score p b))
                     (board_hash (before_store p b) b') = Some v ->
            v = heuristic_score (before_store p b) b').
    rewrite (board_hash_same_game _ _ b' (before_store_same_game p b)).
    rewrite (heuristic_score_same_game _ _ b' (before_store_same_game p b)).
    rewrite tbl_find_assign_iff by (now apply before_store_find_None).
    intros [[Hk ->]|Hf].
    + symmetry. now apply heuristic_score_of_hash.
    + apply before_store_find_Some in Hf. exact (Hc _ _ Hf).
Qed.

(** The size of the table after a call. *)
Lemma evaluate_size p b :
  let n := tbl_size (_table p) in
  let n' := tbl_size (_table (snd (evaluate p b))) in
  (n < 100000 -> n <= n' <= n + 1) /\ (100000 <= n -> n' = n).
Proof.
  cbv zeta.
  destruct (evaluate_cases p b) as [[_ E]|[(v & _ & _ & E)|(_ & F & E)]];
    rewrite E; cbn [snd]; try (cbn; lia).
  cbn [_table log_op set_table].
  rewrite tbl_size_assign_new by (now apply before_store_find_None).
  rewrite before_store_table.
  destruct (100000 <=? tbl_size (_table p)) eqn:L.
  - apply Z.leb_le in L. rewrite tbl_size_erase_begin by lia. lia.
  - apply Z.leb_gt in L. lia.
Qed.

(** A player with an empty table. *)
Lemma empty_table_find p k :
  tbl_entries (_table p) = [] -> tbl_find (_table p) k = None.
Proof.
  intros E. apply tbl_find_None. now rewrite E.
Qed.

Lemma empty_table_int_valued p :
  tbl_entries (_table p) = [] -> table_int_valued p.
Proof.
  intros E k v H. rewrite (empty_table_find p k E) in H. discriminate.
Qed.

Lemma empty_table_consistent p :
  tbl_entries (_table p) = [] -> table_consistent p.
Proof.
  intros E b v H. rewrite (empty_table_find p _ E) in H. discriminate.
Qed.

End EvaluateFacts.

(** ** Claims on the evaluator and the table *)

Section EvaluateClaims.

Context {BO : BoardOps} {TO : TableOps} {PA : Params}.

(** C8. In material-only testing mode, [evaluate] returns exactly the piece
    count of the agent minus the piece count of the opponent, and it leaves
    the player as it was: the table is the same and the log shows no
    operation on it, neither a lookup nor a store. *)
Theorem C8_material_only (p : Player) (b : Board) :
  testingMinimax p = true ->
  evaluate p b = (count b (_side p) - count b (_opponentSide p), p).
Proof.
  intros T. rewrite evaluate_testing by exact T.
  now rewrite material_score_exact.
Qed.

(** C7. The size of the table never exceeds 100000: a table within the
    bound stays within it after every call of every sequence of calls of
    [evaluate]. *)
Theorem C7_table_bound (p : Player) (bs : list Board) (n : nat) :
  tbl_size (_table p) <= 100000 ->
  tbl_size (_table (evaluate_all p (firstn n bs))) <= 100000.
Proof.
  unfold evaluate_all. generalize (firstn n bs). clear n bs.
  intros l. revert p. induction l as [|b l IH]; intros p Hp; cbn [fold_left].
  - exact Hp.
  - apply IH. pose proof (evaluate_size p b) as [H1 H2]. lia.
Qed.

(** C9. Two calls of [evaluate] on one board return the same score.  With
    the table in use, the first call leaves the score of the board in the
    table under its key, having stored it if the key was absent, and the
    second call is a hit: it looks the key up, reads the entry, and does
    nothing else to the player. *)
Theorem C9_evaluate_twice (p : Player) (b : Board) :
  let r1 := evaluate p b in
  let r2 := evaluate (snd r1) b in
  fst r2 = fst r1 /\
  (testingMinimax p = false ->
   tbl_find (_table (snd r1)) (board_hash p b) = Some (fst r1) /\
   (tbl_find (_table p) (board_hash p b) = None ->
    hd_error (table_log (snd r1)) = Some (OpAssign (board_hash p b) (fst r1))) /\
   snd r2 = log_op (OpIndex (board_hash p b))
                   (log_op (OpFind (board_hash p b)) (snd r1))).
Proof.
  cbv zeta.
  destruct (evaluate_cases p b) as [[T E]|[(v & T & F & E)|(T & F & E)]].
  - rewrite E. cbn [fst snd]. rewrite E. split; [reflexivity | congruence].
  - rewrite E. cbn [fst snd].
    rewrite (evaluate_hit _ b v) by (cbn; auto). cbn [fst snd].
    split; [reflexivity|]. intros _. repeat split; auto. congruence.
  - rewrite E. cbn [fst snd].
    set (q := log_op _ _).
    assert (Hq : tbl_find (_table q) (board_hash q b) = Some (heuristic_score p b)).
    { subst q. cbn [_table log_op set_table].
      change (board_hash _ b) with (board_hash (before_store p b) b) at 2.
      rewrite (board_hash_same_game _ _ b (before_store_same_game p b)).
      apply tbl_find_assign_same. now apply before_store_find_None. }
    assert (Hg : same_game p q).
    { subst q. destruct (before_store_same_game p b) as (A & B & C & D).
      repeat split; assumption. }
    assert (Tq : testingMinimax q = false) by (destruct Hg as (A & _); congruence).
    rewrite (evaluate_hit q b _ Tq Hq). cbn [fst snd].
    rewrite (board_hash_same_game _ _ b Hg) in *.
    split; [reflexivity|]. intros _. repeat split; auto.
Qed.

(** C2, as the code has it.  When the table holds 100000 entries and
    [evaluate] stores a key that it does not hold, exactly one entry goes:
    the entry at [begin()], the first in the order in which the container
    iterates.  All other entries stay, and the new one is added. *)
Theorem C2_evicts_begin (p : Player) (b : Board) :
  testingMinimax p = false ->
  tbl_size (_table p) = 100000 ->
  tbl_find (_table p) (board_hash p b) = None ->
  exists k v rest,
    tbl_entries (_table p) = (k, v) :: rest /\
    Permutation (tbl_entries (_table (snd (evaluate p b))))
                ((board_hash p b, heuristic_score p b) :: rest) /\
    evicted_key (table_log (snd (evaluate p b))) = Some k /\
    tbl_size (_table (snd (evaluate p b))) = 100000.
Proof.
  intros T S F.
  pose proof (evaluate_size p b) as [_ Hsz]. cbv zeta in Hsz.
  rewrite (evaluate_miss p b T F) in *. cbn [snd] in *.
  assert (L : (100000 <=? tbl_size (_table p)) = true) by (apply Z.leb_le; lia).
  destruct (tbl_entries (_table p)) as [|[k v] rest] eqn:E.
  { rewrite tbl_size_spec, E in S. cbn in S. lia. }
  exists k, v, rest. split; [reflexivity|]. split; [|split].
  - cbn [_table log_op set_table].
    eapply Permutation_trans.
    + apply tbl_entries_assign_new. now apply before_store_find_None.
    + rewrite before_store_table, L, tbl_entries_erase_begin, E. cbn [tl].
      apply Permutation_refl.
  - unfold before_store. rewrite L. cbn. unfold tbl_begin_key. now rewrite E.
  - lia.
Qed.

End EvaluateClaims.

(** ** The search returns *)

Section SearchRuns.

Context {BO : BoardOps} {TO : TableOps} {PA : Params}.

Lemma same_game_alloc_boards p n : same_game p (alloc_boards n p).
Proof. repeat split. Qed.

Lemma same_game_alloc_moves p n : same_game p (alloc_moves n p).
Proof. repeat split. Qed.

Lemma in_int_max a b : in_int a -> in_int b -> in_int (Z.max a b).
Proof. unfold in_int. lia. Qed.

Lemma in_int_min a b : in_int a -> in_int b -> in_int (Z.min a b).
Proof. unfold in_int. lia. Qed.

Lemma max_loop_runs rec b s beta :
  rec_runs rec ->
  forall moves alpha p,
    in_int alpha -> table_int_valued p ->
    exists r q, max_loop rec b s moves alpha beta p = Ok (r, q) /\
                same_game p q /\ table_int_valued q /\ in_int r.
Proof.
  intros Hrec. induction moves as [|m rest IH]; intros alpha p Ha Hp.
  - exists alpha, p. split; [reflexivity|]. split; [apply same_game_refl|]. auto.
  - cbn [max_loop].
    destruct (Hrec (Board_doMove b (Some m) s)
                   (_opponentSide (alloc_boards 1 p)) alpha beta
                   (alloc_boards 1 p) Hp) as (r1 & q1 & E & G & V & R).
    rewrite E. cbn [bind].
    destruct (beta <=? Z.max alpha r1).
    + exists (Z.max alpha r1), q1. split; [reflexivity|]. split; [exact G|].
      split; [exact V|]. now apply in_int_max.
    + destruct (IH (Z.max alpha r1) (alloc_boards (-1) (alloc_moves (-1) q1))
                   (in_int_max _ _ Ha R) V) as (r & q & E' & G' & V' & R').
      exists r, q. split; [exact E'|]. split; [|auto].
      eapply same_game_trans; [exact G|]. exact G'.
Qed.

Lemma min_loop_runs rec b s alpha :
  rec_runs rec ->
  forall moves beta p,
    in_int beta -> table_int_valued p ->
    exists r q, min_loop rec b s moves alpha beta p = Ok (r, q) /\
                same_game p q /\ table_int_valued q /\ in_int r.
Proof.
  intros Hrec. induction moves as [|m rest IH]; intros beta p Hb Hp.
  - exists beta, p. split; [reflexivity|]. split; [apply same_game_refl|]. auto.
  - cbn [min_loop].
    destruct (Hrec (Board_doMove b (Some m) s)
                   (_side (alloc_boards 1 p)) alpha beta
                   (alloc_boards 1 p) Hp) as (r1 & q1 & E & G & V & R).
    rewrite E. cbn [bind].
    destruct (Z.min beta r1 <=? alpha).
    + exists (Z.min beta r1), q1. split; [reflexivity|]. split; [exact G|].
      split; [exact V|]. now apply in_int_min.
    + destruct (IH (Z.min beta r1) (alloc_boards (-1) (alloc_moves (-1) q1))
                   (in_int_min _ _ Hb R) V) as (r & q & E' & G' & V' & R').
      exists r, q. split; [exact E'|]. split; [|auto].
      eapply same_game_trans; [exact G|]. exact G'.
Qed.

Lemma pred_overflows_pos depth : 0 <= depth -> pred_overflows depth = false.
Proof.
  intros H. unfold pred_overflows, INT_MIN, two_p31. apply Z.leb_gt. lia.
Qed.

(** With a depth that is not negative, fuel above the depth suffices. *)
Lemma minimaxHelper_runs fuel :
  forall depth b s alpha beta p,
    0 <= depth < Z.of_nat fuel -> table_int_valued p ->
    exists r q, minimaxHelper fuel depth b s alpha beta p = Ok (r, q) /\
                same_game p q /\ table_int_valued q /\ in_int r.
Proof.
  induction fuel as [|fuel IH]; intros depth b s alpha beta p Hd Hp; [lia|].
  cbn [minimaxHelper].
  destruct (depth =? 0) eqn:D.
  - exists (fst (evaluate p b)), (snd (evaluate p b)).
    rewrite <- surjective_pairing. split; [reflexivity|].
    split; [apply evaluate_same_game|].
    destruct (evaluate_int_valued p b Hp). auto.
  - apply Z.eqb_neq in D. unfold possible_moves.
    destruct (getPossibleMoves b s) as [|m ms] eqn:M.
    + set (p' := alloc_moves _ p).
      exists (fst (evaluate p' b)), (snd (evaluate p' b)).
      rewrite <- surjective_pairing. split; [reflexivity|].
      split; [apply (same_game_trans _ p'); [apply same_game_alloc_moves
                                            | apply evaluate_same_game] |].
      destruct (evaluate_int_valued p' b Hp). auto.
    + rewrite pred_overflows_pos by lia.
      set (p' := alloc_moves _ p).
      assert (Hrec : rec_runs (fun nb s' a bt q =>
                                 minimaxHelper fuel (depth - 1) nb s' a bt q)).
      { intros nb s' a bt q Hq. apply IH; [lia | exact Hq]. }
      destruct (Side_eqb s (_side p')).
      * destruct (max_loop_runs _ b s beta Hrec (m :: ms) INT_MIN p'
                                in_int_INT_MIN Hp) as (r & q & E & G & V & R).
        exists r, q. split; [exact E|]. split; [|auto].
        eapply same_game_trans; [apply same_game_alloc_moves | exact G].
      * destruct (min_loop_runs _ b s alpha Hrec (m :: ms) INT_MAX p'
                                in_int_INT_MAX Hp) as (r & q & E & G & V & R).
        exists r, q. split; [exact E|]. split; [|auto].
        eapply same_game_trans; [apply same_game_alloc_moves | exact G].
Qed.

(** *** The loop of [findMinimaxMove] *)

Lemma root_loop_runs rec beta :
  rec_runs rec ->
  forall moves alpha best p,
    table_int_valued p ->
    exists r q, root_loop rec moves alpha beta best p = Ok (r, q) /\
                same_game p q /\ table_int_valued q /\
                List.length (root_scores r) = List.length moves /\
                Forall in_int (root_scores r) /\
                alpha <= root_alpha r /\
                Forall (fun x => x <= root_alpha r) (root_scores r) /\
                root_choice moves alpha best r.
Proof.
  intros Hrec. induction moves as [|[i m] rest IH]; intros alpha best p Hp.
  - exists (mkRoot alpha best []), p. cbn [root_alpha root_best root_scores].
    split; [reflexivity|]. split; [apply same_game_refl|].
    split; [exact Hp|]. split; [reflexivity|]. split; [constructor|].
    split; [lia|]. split; [constructor|].
    left. cbn. auto.
  - cbn [root_loop].
    destruct (Hrec (Board_doMove (_board (alloc_boards 1 p)) (Some m)
                                 (_side (alloc_boards 1 p)))
                   (_opponentSide (alloc_boards 1 p)) alpha beta
                   (alloc_boards 1 p) Hp) as (r1 & q1 & E & G & V & R).
    rewrite E. cbn [bind].
    destruct (alpha <=? r1) eqn:L.
    + (* the move becomes the best *)
      apply Z.leb_le in L.
      set (q2 := alloc_boards (-1) _).
      assert (V2 : table_int_valued q2)
        by (subst q2; destruct (differs_from_best i (Some (i, m))); exact V).
      assert (G2 : same_game q1 q2)
        by (subst q2; destruct (differs_from_best i (Some (i, m)));
            repeat split).
      destruct (IH r1 (Some (i, m)) q2 V2)
        as (r & q & E' & G' & V' & Len & Hin & Hle & Hall & Hch).
      rewrite E'. cbn [bind].
      eexists; eexists. split; [reflexivity|]. cbn [root_alpha root_best root_scores].
      split; [exact (same_game_trans _ _ _ G (same_game_trans _ _ _ G2 G'))|].
      split; [exact V'|]. split; [cbn; now rewrite Len|].
      split; [now constructor|]. split; [lia|].
      split; [constructor; [lia | exact Hall]|].
      right. destruct Hch as [(Hb & Ha & Hlt)|(j & im & Hn & Hb & Hs & Hlt)].
      * exists 0%nat, (i, m). cbn [nth_error]. rewrite Ha.
        repeat split; auto.
        intros i' x Hi' Hx. destruct i' as [|i']; [lia|]. cbn in Hx.
        rewrite Forall_forall in Hlt. apply Hlt.
        eapply nth_error_In; eauto.
      * exists (S j), im. cbn [nth_error]. repeat split; auto.
        intros i' x Hi' Hx. destruct i' as [|i']; [lia|]. cbn in Hx.
        apply (Hlt i' x); [lia | exact Hx].
    + (* the best stays *)
      apply Z.leb_gt in L.
      set (q2 := alloc_boards (-1) _).
      assert (V2 : table_int_valued q2)
        by (subst q2; destruct (differs_from_best i best); exact V).
      assert (G2 : same_game q1 q2)
        by (subst q2; destruct (differs_from_best i best); repeat split).
      destruct (IH alpha best q2 V2)
        as (r & q & E' & G' & V' & Len & Hin & Hle & Hall & Hch).
      rewrite E'. cbn [bind].
      eexists; eexists. split; [reflexivity|]. cbn [root_alpha root_best root_scores].
      split; [exact (same_game_trans _ _ _ G (same_game_trans _ _ _ G2 G'))|].
      split; [exact V'|]. split; [cbn; now rewrite Len|].
      split; [now constructor|]. split; [lia|].
      split; [constructor; [lia | exact Hall]|].
      destruct Hch as [(Hb & Ha & Hlt)|(j & im & Hn & Hb & Hs & Hlt)].
      * left. repeat split; auto. constructor; [lia | exact Hlt].
      * right. exists (S j), im. cbn [nth_error]. repeat split; auto.
        intros i' x Hi' Hx. destruct i' as [|i']; [lia|]. cbn in Hx.
        apply (Hlt i' x); [lia | exact Hx].
Qed.

Lemma nth_error_combine_seq {A} (l : list A) :
  forall s j i x,
    nth_error (combine (seq s (List.length l)) l) j = Some (i, x) ->
    i = (s + j)%nat /\ nth_error l j = Some x.
Proof.
  induction l as [|a l IH]; intros s j i x H; cbn in H.
  - destruct j; discriminate.
  - destruct j as [|j]; cbn in H.
    + inversion H; subst. split; [lia | reflexivity].
    + apply IH in H. destruct H as [-> H]. split; [lia | exact H].
Qed.

End SearchRuns.

(** ** The search does not look at its bookkeeping *)

Section Bookkeeping.

Context {BO : BoardOps} {TO : TableOps} {PA : Params}.

Lemma same_store_refl p : same_store p p.
Proof. split; [apply same_game_refl | reflexivity]. Qed.

Lemma same_store_alloc_boards p q n m :
  same_store p q -> same_store (alloc_boards n p) (alloc_boards m q).
Proof. intros H. exact H. Qed.

Lemma same_store_alloc_moves p q n m :
  same_store p q -> same_store (alloc_moves n p) (alloc_moves m q).
Proof. intros H. exact H. Qed.

Lemma evaluate_same_store p q b :
  same_store p q ->
  fst (evaluate p b) = fst (evaluate q b) /\
  same_store (snd (evaluate p b)) (snd (evaluate q b)).
Proof.
  intros [G T]. pose proof G as (Tm & Sd & Op & _).
  pose proof (board_hash_same_game p q b G) as Hh.
  pose proof (heuristic_score_same_game p q b G) as Hs.
  destruct (testingMinimax p) eqn:Tp.
  - rewrite (evaluate_testing p b Tp), (evaluate_testing q b Tm).
    cbn [fst snd]. split; [|split; assumption].
    unfold material_score. now rewrite Sd, Op.
  - destruct (tbl_find (_table p) (board_hash p b)) as [v|] eqn:F.
    + assert (F' : tbl_find (_table q) (board_hash q b) = Some v)
        by (now rewrite T, Hh).
      rewrite (evaluate_hit p b v Tp F), (evaluate_hit q b v Tm F').
      cbn [fst snd]. split; [reflexivity|]. split; assumption.
    + assert (F' : tbl_find (_table q) (board_hash q b) = None)
        by (now rewrite T, Hh).
      rewrite (evaluate_miss p b Tp F), (evaluate_miss q b Tm F').
      cbn [fst snd]. split; [now rewrite Hs|].
      split.
      * pose proof (before_store_same_game p b) as (A1 & A2 & A3 & A4).
        pose proof (before_store_same_game q b) as (B1 & B2 & B3 & B4).
        destruct G as (G1 & G2 & G3 & G4).
        unfold same_game.
        cbn [testingMinimax _side _opponentSide _board log_op set_table].
        rewrite A1, A2, A3, A4, B1, B2, B3, B4. auto.
      * cbn [_table log_op set_table].
        rewrite !before_store_table, T, Hh, Hs. reflexivity.
Qed.

Lemma same_result_evaluate p q b :
  same_store p q -> same_result (Ok (evaluate p b)) (Ok (evaluate q b)).
Proof.
  intros H. destruct (evaluate_same_store p q b H) as [E S].
  destruct (evaluate p b), (evaluate q b). cbn in *. auto.
Qed.

Lemma max_loop_same rec b s beta :
  rec_same rec ->
  forall moves alpha p q,
    same_store p q ->
    same_result (max_loop rec b s moves alpha beta p)
                (max_loop rec b s moves alpha beta q).
Proof.
  intros Hrec. induction moves as [|m rest IH]; intros alpha p q H.
  - cbn. auto.
  - cbn [max_loop].
    assert (O : _opponentSide (alloc_boards 1 q) = _opponentSide (alloc_boards 1 p))
      by (destruct H as ((_ & _ & O & _) & _); exact O).
    rewrite O.
    pose proof (Hrec (Board_doMove b (Some m) s)
                     (_opponentSide (alloc_boards 1 p)) alpha beta
                     (alloc_boards 1 p) (alloc_boards 1 q)
                     (same_store_alloc_boards p q 1 1 H)) as R.
    destruct (rec _ _ _ _ (alloc_boards 1 p)) as [[r1 p1]| |],
             (rec _ _ _ _ (alloc_boards 1 q)) as [[r2 q2]| |];
      cbn in R; try contradiction; cbn [bind]; auto.
    destruct R as [<- S].
    destruct (beta <=? Z.max alpha r1); [cbn; auto|].
    apply IH. exact S.
Qed.

Lemma min_loop_same rec b s alpha :
  rec_same rec ->
  forall moves beta p q,
    same_store p q ->
    same_result (min_loop rec b s moves alpha beta p)
                (min_loop rec b s moves alpha beta q).
Proof.
  intros Hrec. induction moves as [|m rest IH]; intros beta p q H.
  - cbn. auto.
  - cbn [min_loop].
    assert (O : _side (alloc_boards 1 q) = _side (alloc_boards 1 p))
      by (destruct H as ((_ & O & _ & _) & _); exact O).
    rewrite O.
    pose proof (Hrec (Board_doMove b (Some m) s)
                     (_side (alloc_boards 1 p)) alpha beta
                     (alloc_boards 1 p) (alloc_boards 1 q)
                     (same_store_alloc_boards p q 1 1 H)) as R.
    destruct (rec _ _ _ _ (alloc_boards 1 p)) as [[r1 p1]| |],
             (rec _ _ _ _ (alloc_boards 1 q)) as [[r2 q2]| |];
      cbn in R; try contradiction; cbn [bind]; auto.
    destruct R as [<- S].
    destruct (Z.min beta r1 <=? alpha); [cbn; auto|].
    apply IH. exact S.
Qed.

(** The score of the helper and the table that it leaves depend on the
    table, the sides and the mode of the player only. *)
Lemma minimaxHelper_same fuel :
  forall depth, rec_same (minimaxHelper fuel depth).
Proof.
  induction fuel as [|fuel IH]; intros depth b s alpha beta p q H;
    [cbn; auto|].
  cbn [minimaxHelper].
  destruct (depth =? 0); [now apply same_result_evaluate|].
  unfold possible_moves.
  destruct (getPossibleMoves b s) as [|m ms] eqn:M.
  - apply same_result_evaluate. exact H.
  - destruct (pred_overflows depth); [cbn; auto|].
    set (n := Z.of_nat (List.length (m :: ms))).
    assert (S : _side (alloc_moves n q) = _side (alloc_moves n p))
      by (destruct H as ((_ & S & _ & _) & _); exact S).
    rewrite S.
    destruct (Side_eqb s (_side (alloc_moves n p))).
    + apply max_loop_same; [apply IH | exact H].
    + apply min_loop_same; [apply IH | exact H].
Qed.

Lemma map_snd_combine_seq {A} (l : list A) :
  forall k, map snd (combine (seq k (List.length l)) l) = l.
Proof.
  induction l as [|x l IH]; intros k; [reflexivity|].
  cbn. now rewrite IH.
Qed.

(** The scores that the loop of [findMinimaxMove] records are the scores
    of the helper. *)
Lemma root_loop_scores rec :
  rec_same rec ->
  forall moves alpha best p p' r q,
    same_store p' p ->
    root_loop rec moves alpha INT_MAX best p = Ok (r, q) ->
    helper_scores rec (map snd moves) alpha p' = Ok (root_scores r).
Proof.
  intros Hrec. induction moves as [|[i m] rest IH];
    intros alpha best p p' r q H E.
  - cbn in E. inversion E; subst. reflexivity.
  - cbn [root_loop] in E. cbn [map snd helper_scores].
    destruct H as ((A & B & C & D) & T).
    assert (H1 : same_store p' (alloc_boards 1 p)) by (repeat split; assumption).
    cbn [_board _side _opponentSide alloc_boards] in E.
    rewrite <- D, <- B, <- C.
    fold (alloc_boards 1 p) in E.
    rewrite D, B, C in E |- *.
    pose proof (Hrec (Board_doMove (_board p') (Some m) (_side p'))
                     (_opponentSide p') alpha INT_MAX p' (alloc_boards 1 p) H1)
      as R.
    destruct (rec _ _ _ _ (alloc_boards 1 p)) as [[s1 p1]| |];
      cbn [bind] in E; try discriminate.
    destruct (rec _ _ _ _ p') as [[s2 p2]| |]; cbn in R; try contradiction.
    destruct R as [-> S]. cbn [bind].
    destruct (alpha <=? s1) eqn:L.
    + apply Z.leb_le in L. rewrite Z.max_r by exact L.
      destruct (root_loop rec rest s1 INT_MAX (Some (i, m)) _)
        as [[r' q']| |] eqn:E'; cbn [bind] in E; try discriminate.
      inversion E; subst. cbn [root_scores].
      erewrite IH; [reflexivity | | exact E'].
      destruct (differs_from_best i (Some (i, m))); exact S.
    + apply Z.leb_gt in L. rewrite Z.max_l by lia.
      destruct (root_loop rec rest alpha INT_MAX best _)
        as [[r' q']| |] eqn:E'; cbn [bind] in E; try discriminate.
      inversion E; subst. cbn [root_scores].
      erewrite IH; [reflexivity | | exact E'].
      destruct (differs_from_best i best); exact S.
Qed.

Lemma root_search_scores fuel depth p r q :
  root_search fuel depth p = Ok (r, q) ->
  helper_scores (fun nb s a bt x => minimaxHelper fuel (depth - 1) nb s a bt x)
                (getPossibleMoves (_board p) (_side p)) INT_MIN p
  = Ok (root_scores r).
Proof.
  unfold root_search, possible_moves. cbv zeta.
  destruct (getPossibleMoves (_board p) (_side p)) as [|m ms] eqn:M.
  - intros E. inversion E; subst. reflexivity.
  - destruct (pred_overflows depth); [discriminate|]. intros E.
    rewrite <- (map_snd_combine_seq (m :: ms) 0).
    refine (root_loop_scores _ _ _ _ _ _ _ _ _ _ E).
    + intros nb s a bt x y H. now apply minimaxHelper_same.
    + apply (same_store_alloc_moves p p 0), same_store_refl.
Qed.

End Bookkeeping.

(** ** Claims on the choice of the move *)

Section RootClaims.

Context {BO : BoardOps} {TO : TableOps} {PA : Params}.

(** What [findMinimaxMove] has in its locals when it returns. *)
Lemma root_search_runs fuel depth p :
  1 <= depth <= Z.of_nat fuel -> table_int_valued p ->
  exists r q,
    root_search fuel depth p = Ok (r, q) /\
    same_game p q /\ table_int_valued q /\
    let moves := getPossibleMoves (_board p) (_side p) in
    List.length (root_scores r) = List.length moves /\
    (moves = [] -> root_best r = None) /\
    (moves <> [] ->
     exists j m,
       root_best r = Some (j, m) /\ nth_error moves j = Some m /\
       nth_error (root_scores r) j = Some (root_alpha r) /\
       forall i x, nth_error (root_scores r) i = Some x ->
                   x <= root_alpha r /\ ((j < i)%nat -> x < root_alpha r)).
Proof.
  intros Hd Hp. unfold root_search, possible_moves. cbv zeta.
  destruct (getPossibleMoves (_board p) (_side p)) as [|m ms] eqn:M.
  - eexists; eexists. split; [reflexivity|].
    split; [apply same_game_alloc_moves|]. split; [exact Hp|].
    cbn. split; [reflexivity|]. split; [reflexivity | congruence].
  - rewrite pred_overflows_pos by lia.
    set (p' := alloc_moves _ p).
    assert (Hrec : rec_runs (fun nb s' a bt q =>
                               minimaxHelper fuel (depth - 1) nb s' a bt q)).
    { intros nb s' a bt q Hq. apply minimaxHelper_runs; [lia | exact Hq]. }
    destruct (root_loop_runs _ INT_MAX Hrec
                (combine (seq 0 (List.length (m :: ms))) (m :: ms))
                INT_MIN None p' Hp)
      as (r & q & E & G & V & Len & Hin & Hle & Hall & Hch).
    exists r, q. split; [exact E|].
    split; [exact (same_game_trans _ _ _ (same_game_alloc_moves p _) G)|].
    split; [exact V|].
    rewrite length_combine, length_seq, Nat.min_id in Len.
    split; [exact Len|]. split; [discriminate|]. intros _.
    destruct Hch as [(Hb & Ha & Hlt)|(j & [i x] & Hn & Hb & Hs & Hlt)].
    + (* no score below INT_MIN *)
      exfalso. destruct (root_scores r) as [|x l]; [discriminate Len|].
      inversion Hlt; subst. inversion Hin; subst.
      unfold in_int in *. lia.
    + apply nth_error_combine_seq in Hn. destruct Hn as [-> Hn].
      exists j, x. split; [exact Hb|]. split; [exact Hn|]. split; [exact Hs|].
      intros i y Hy. split.
      * rewrite Forall_forall in Hall. apply Hall.
        eapply nth_error_In; eauto.
      * intros Hj. eapply Hlt; eauto.
Qed.

(** C5. [findMinimaxMove] takes a move as its best when the score that the
    helper returned for it is not below the best score so far.  The scores
    are those of [helper_scores]: what [minimaxHelper] returns at
    [depth - 1] for the board after each move, for the opponent, with the
    best score so far as [alpha].  The move that is returned has the
    greatest of these scores, and every move after it has a smaller score:
    of the moves that tie for the best score, the last in the order of the
    moves is returned.  (The scores are the returns of the pruned helper:
    for a move that the helper cuts off, the score can be [alpha] where
    the minimax value of the move is below it.) *)
Theorem C5_ties_favor_later (fuel : nat) (depth : Z) (p : Player) :
  1 <= depth <= Z.of_nat fuel -> table_int_valued p ->
  exists r q,
    root_search fuel depth p = Ok (r, q) /\
    findMinimaxMove fuel depth p = Ok (option_map snd (root_best r), q) /\
    let moves := getPossibleMoves (_board p) (_side p) in
    let scores := root_scores r in
    helper_scores
      (fun nb s a bt x => minimaxHelper fuel (depth - 1) nb s a bt x)
      moves INT_MIN p = Ok scores /\
    List.length scores = List.length moves /\
    (moves <> [] ->
     exists j m,
       root_best r = Some (j, m) /\ nth_error moves j = Some m /\
       nth_error scores j = Some (root_alpha r) /\
       forall i x, nth_error scores i = Some x ->
                   x <= root_alpha r /\ ((j < i)%nat -> x < root_alpha r)).
Proof.
  intros Hd Hp.
  destruct (root_search_runs fuel depth p Hd Hp)
    as (r & q & E & _ & _ & Len & _ & Hsel).
  exists r, q. split; [exact E|]. split.
  - unfold findMinimaxMove. rewrite E. reflexivity.
  - cbv zeta. split; [exact (root_search_scores fuel depth p r q E)|].
    split; [exact Len | exact Hsel].
Qed.

(** [findMinimaxMove] returns no move exactly when the agent has none. *)
Lemma findMinimaxMove_runs fuel depth p :
  1 <= depth <= Z.of_nat fuel -> table_int_valued p ->
  exists m q,
    findMinimaxMove fuel depth p = Ok (m, q) /\ same_game p q /\
    (m = None <-> getPossibleMoves (_board p) (_side p) = []).
Proof.
  intros Hd Hp.
  destruct (root_search_runs fuel depth p Hd Hp)
    as (r & q & E & G & _ & _ & Hnil & Hsel).
  cbv zeta in *.
  exists (option_map snd (root_best r)), q.
  split; [unfold findMinimaxMove; now rewrite E|]. split; [exact G|].
  destruct (getPossibleMoves (_board p) (_side p)) as [|m ms].
  - rewrite Hnil by reflexivity. cbn. tauto.
  - destruct Hsel as (j & x & Hb & _); [discriminate|].
    rewrite Hb. cbn. split; discriminate.
Qed.

(** C6. With a time budget [msLeft <= 0], [doMove] returns, and it returns
    no move exactly when the agent has no legal move on its board (the
    board after the move of the opponent); with a legal move it never
    returns [NULL]. *)
Theorem C6_no_move_iff_none_legal (clock : nat -> Z) (fuel : nat)
    (opponentsMove : option Move) (msLeft : Z) (p : Player) :
  msLeft <= 0 ->
  1 <= MINIMAXDEPTH <= Z.of_nat fuel -> (2 <= fuel)%nat ->
  table_int_valued p ->
  exists m q,
    doMove clock fuel opponentsMove msLeft p = Ok (m, q) /\
    (m = None <->
     getPossibleMoves (_board (after_opponent opponentsMove p)) (_side p) = []).
Proof.
  intros Hms Hdepth Hfuel Hp. unfold doMove.
  fold (after_opponent opponentsMove p).
  set (p1 := after_opponent opponentsMove p).
  assert (Hp1 : table_int_valued p1)
    by (subst p1; destruct opponentsMove; exact Hp).
  assert (Hs : _side p1 = _side p) by (subst p1; now destruct opponentsMove).
  assert (L : (0 <? msLeft) = false) by (apply Z.ltb_ge; lia).
  rewrite L.
  assert (Hrun : exists m q,
             (if testingMinimax p1 then findMinimaxMove fuel 2 p1
              else findMinimaxMove fuel MINIMAXDEPTH p1) = Ok (m, q) /\
             (m = None <-> getPossibleMoves (_board p1) (_side p1) = [])).
  { destruct (testingMinimax p1).
    - destruct (findMinimaxMove_runs fuel 2 p1 ltac:(lia) Hp1)
        as (m & q & E & _ & Hm). eauto.
    - destruct (findMinimaxMove_runs fuel MINIMAXDEPTH p1 Hdepth Hp1)
        as (m & q & E & _ & Hm). eauto. }
  destruct Hrun as (m & q & E & Hm). rewrite E. cbn [bind].
  eexists; eexists. split; [reflexivity|]. now rewrite <- Hs.
Qed.

(** C10. With a time budget [0 < msLeft < 500] the allowance
    [msLeft / 500] is zero, the deepening loop does not run once, and
    [doMove] returns [NULL], whatever the legal moves of the agent: no
    search is run, and the table and its log are as they were.  (The clock
    does not run backwards between its first two readings.) *)
Theorem C10_small_budget_returns_null (clock : nat -> Z) (fuel : nat)
    (opponentsMove : option Move) (msLeft : Z) (p : Player) :
  0 < msLeft < 500 ->
  clock 0%nat <= clock 1%nat ->
  (0 < fuel)%nat ->
  msLeft ÷ 500 = 0 /\
  doMove clock fuel opponentsMove msLeft p =
  Ok (None,
      set_board (Board_doMove (_board (after_opponent opponentsMove p)) None
                              (_side p))
                (after_opponent opponentsMove p)).
Proof.
  intros Hms Hclk Hfuel.
  assert (Q : msLeft ÷ 500 = 0) by (apply Z.quot_small; lia).
  split; [exact Q|].
  unfold doMove. fold (after_opponent opponentsMove p).
  set (p1 := after_opponent opponentsMove p).
  assert (Hs : _side p1 = _side p) by (subst p1; now destruct opponentsMove).
  assert (L : (0 <? msLeft) = true) by (apply Z.ltb_lt; lia).
  rewrite L, Q. destruct fuel as [|fuel]; [lia|].
  cbn [deepening_loop]. unfold time_remains.
  assert (T : (clock 1%nat - clock 0%nat <? 0 * (CLOCKS_PER_SEC ÷ 1000)) = false)
    by (apply Z.ltb_ge; lia).
  rewrite T. cbn [bind]. now rewrite Hs.
Qed.

End RootClaims.

(** ** Alpha-beta against full minimax *)

Section Refinement.

Context {BO : BoardOps} {TO : TableOps} {PA : Params}.

(** The player [p0] at the start of a search. *)
Variable p0 : Player.

Hypothesis sides : sides_ok p0.

Let agent : Side := _side p0.
Let opponent : Side := _opponentSide p0.
Let value : Board -> Z := static_value p0.

Lemma searching_alloc_boards p n : searching p0 p -> searching p0 (alloc_boards n p).
Proof. intros [G C]. split; [|exact C]. destruct G as (A & B & D & E). repeat split; assumption. Qed.

Lemma searching_alloc_moves p n : searching p0 p -> searching p0 (alloc_moves n p).
Proof. intros [G C]. split; [|exact C]. destruct G as (A & B & D & E). repeat split; assumption. Qed.

Lemma searching_evaluate p b :
  searching p0 p ->
  fst (evaluate p b) = value b /\ searching p0 (snd (evaluate p b)).
Proof.
  intros [G C]. destruct (evaluate_consistent p b C) as [E C'].
  split.
  - rewrite E. now apply static_value_same_game.
  - split; [|exact C'].
    eapply same_game_trans; [exact G | apply evaluate_same_game].
Qed.

Lemma searching_side p : searching p0 p -> _side p = agent.
Proof. intros [(_ & E & _) _]. exact E. Qed.

Lemma searching_opponent p : searching p0 p -> _opponentSide p = opponent.
Proof. intros [(_ & _ & E & _) _]. exact E. Qed.

Lemma opponent_not_agent : Side_eqb opponent agent = false.
Proof.
  unfold opponent, agent. rewrite sides. apply Side_eqb_other.
Qed.

Lemma bounded_result_exact s alpha beta v : bounded_result agent s alpha beta v v.
Proof.
  unfold bounded_result. destruct (Side_eqb s agent); split; intros; lia.
Qed.

Lemma fold_max_ge vs : forall a, a <= fold_left Z.max vs a.
Proof.
  induction vs as [|x vs IH]; intros a; cbn [fold_left]; [lia|].
  specialize (IH (Z.max a x)). lia.
Qed.

Lemma fold_min_le vs : forall a, fold_left Z.min vs a <= a.
Proof.
  induction vs as [|x vs IH]; intros a; cbn [fold_left]; [lia|].
  specialize (IH (Z.min a x)). lia.
Qed.

Lemma mapM_cons {A B} (f : A -> res B) x xs ys :
  mapM f (x :: xs) = Ok ys ->
  exists y ys', f x = Ok y /\ mapM f xs = Ok ys' /\ ys = y :: ys'.
Proof.
  cbn [mapM]. destruct (f x) as [y| |]; cbn [bind]; try discriminate.
  destruct (mapM f xs) as [ys'| |]; cbn [bind]; try discriminate.
  intros E. inversion E. eauto.
Qed.

Lemma mapM_nil {A B} (f : A -> res B) ys : mapM f [] = Ok ys -> ys = [].
Proof. cbn. intros E. now inversion E. Qed.

(** The loop of a maximizing node returns the maximum of [alpha] and the
    values of the moves, or a value from [beta] up to that maximum. *)
Lemma max_loop_refines rec full b s beta :
  rec_refines p0 rec full ->
  forall moves alpha p vs,
    searching p0 p ->
    mapM (fun m => full (Board_doMove b (Some m) s) opponent) moves = Ok vs ->
    exists r q,
      max_loop rec b s moves alpha beta p = Ok (r, q) /\ searching p0 q /\
      let V := fold_left Z.max vs alpha in
      (V < beta -> r = V) /\ (beta <= V -> beta <= r <= V).
Proof.
  intros Hrec. induction moves as [|m rest IH]; intros alpha p vs Hp Hvs.
  - apply mapM_nil in Hvs. subst vs. exists alpha, p.
    split; [reflexivity|]. split; [exact Hp|]. cbn. lia.
  - apply mapM_cons in Hvs. destruct Hvs as (x & xs & Hx & Hxs & ->).
    cbn [max_loop].
    pose proof (searching_alloc_boards p 1 Hp) as Hp1.
    rewrite (searching_opponent _ Hp1).
    destruct (Hrec _ _ alpha beta _ _ Hp1 Hx) as (r1 & q1 & E & Hq1 & Hb).
    rewrite E. cbn [bind].
    unfold bounded_result in Hb. fold agent in Hb.
    rewrite opponent_not_agent in Hb.
    assert (Hmax : Z.max alpha r1 = Z.max alpha x) by lia.
    rewrite Hmax. cbn [fold_left].
    destruct (beta <=? Z.max alpha x) eqn:L.
    + apply Z.leb_le in L. exists (Z.max alpha x), q1.
      split; [reflexivity|]. split; [exact Hq1|]. cbv zeta.
      pose proof (fold_max_ge xs (Z.max alpha x)). lia.
    + apply (IH (Z.max alpha x) _ xs); [|exact Hxs].
      now apply searching_alloc_boards, searching_alloc_moves.
Qed.

(** The loop of a minimizing node returns the minimum of [beta] and the
    values of the moves, or a value from that minimum up to [alpha]. *)
Lemma min_loop_refines rec full b s alpha :
  rec_refines p0 rec full ->
  forall moves beta p vs,
    searching p0 p ->
    mapM (fun m => full (Board_doMove b (Some m) s) agent) moves = Ok vs ->
    exists r q,
      min_loop rec b s moves alpha beta p = Ok (r, q) /\ searching p0 q /\
      let V := fold_left Z.min vs beta in
      (alpha < V -> r = V) /\ (V <= alpha -> V <= r <= alpha).
Proof.
  intros Hrec. induction moves as [|m rest IH]; intros beta p vs Hp Hvs.
  - apply mapM_nil in Hvs. subst vs. exists beta, p.
    split; [reflexivity|]. split; [exact Hp|]. cbn. lia.
  - apply mapM_cons in Hvs. destruct Hvs as (x & xs & Hx & Hxs & ->).
    cbn [min_loop].
    pose proof (searching_alloc_boards p 1 Hp) as Hp1.
    rewrite (searching_side _ Hp1).
    destruct (Hrec _ _ alpha beta _ _ Hp1 Hx) as (r1 & q1 & E & Hq1 & Hb).
    rewrite E. cbn [bind].
    unfold bounded_result in Hb. fold agent in Hb.
    rewrite Side_eqb_refl in Hb.
    assert (Hmin : Z.min beta r1 = Z.min beta x) by lia.
    rewrite Hmin. cbn [fold_left].
    destruct (Z.min beta x <=? alpha) eqn:L.
    + apply Z.leb_le in L. exists (Z.min beta x), q1.
      split; [reflexivity|]. split; [exact Hq1|]. cbv zeta.
      pose proof (fold_min_le xs (Z.min beta x)). lia.
    + apply (IH (Z.min beta x) _ xs); [|exact Hxs].
      now apply searching_alloc_boards, searching_alloc_moves.
Qed.

Lemma value_in_int b : in_int (value b).
Proof. apply static_value_in_int. Qed.

Lemma in_int_fold_max vs : forall a,
  in_int a -> Forall in_int vs -> in_int (fold_left Z.max vs a).
Proof.
  induction vs as [|x vs IH]; intros a Ha Hvs; cbn [fold_left]; auto.
  inversion Hvs; subst. apply IH; auto. now apply in_int_max.
Qed.

Lemma in_int_fold_min vs : forall a,
  in_int a -> Forall in_int vs -> in_int (fold_left Z.min vs a).
Proof.
  induction vs as [|x vs IH]; intros a Ha Hvs; cbn [fold_left]; auto.
  inversion Hvs; subst. apply IH; auto. now apply in_int_min.
Qed.

Lemma mapM_Forall {A B} (f : A -> res B) (P : B -> Prop) :
  (forall x y, f x = Ok y -> P y) ->
  forall l ys, mapM f l = Ok ys -> Forall P ys.
Proof.
  intros Hf. induction l as [|x l IH]; intros ys H.
  - apply mapM_nil in H. subst. constructor.
  - apply mapM_cons in H. destruct H as (y & ys' & Hy & Hys & ->).
    constructor; eauto.
Qed.

(** A full minimax value is an [int]. *)
Lemma full_minimax_in_int fuel :
  forall depth b s v,
    full_minimax agent opponent value fuel depth b s = Ok v -> in_int v.
Proof.
  induction fuel as [|fuel IH]; intros depth b s v H; [discriminate|].
  cbn [full_minimax] in H.
  destruct (depth =? 0).
  { inversion H. apply value_in_int. }
  destruct (getPossibleMoves b s) as [|m ms].
  { inversion H. apply value_in_int. }
  destruct (pred_overflows depth); [discriminate|].
  destruct (Side_eqb s agent).
  - destruct (full_minimax _ _ _ fuel _ _ opponent) as [x| |] eqn:Hx;
      cbn [bind] in H; try discriminate.
    destruct (mapM _ ms) as [xs| |] eqn:Hxs; cbn [bind] in H; try discriminate.
    inversion H. apply in_int_fold_max; [eapply IH; eauto|].
    eapply mapM_Forall; [|exact Hxs]. intros x0 y H0. exact (IH _ _ _ _ H0).
  - destruct (full_minimax _ _ _ fuel _ _ agent) as [x| |] eqn:Hx;
      cbn [bind] in H; try discriminate.
    destruct (mapM _ ms) as [xs| |] eqn:Hxs; cbn [bind] in H; try discriminate.
    inversion H. apply in_int_fold_min; [eapply IH; eauto|].
    eapply mapM_Forall; [|exact Hxs]. intros x0 y H0. exact (IH _ _ _ _ H0).
Qed.

(** The helper against full minimax: where the full search returns a
    value, the helper returns on the same fuel, and what it returns is the
    value within the bounds of the call. *)
Lemma minimaxHelper_refines fuel :
  forall depth,
    rec_refines p0 (fun b s a bt q => minimaxHelper fuel depth b s a bt q)
                (fun b s => full_minimax agent opponent value fuel depth b s).
Proof.
  induction fuel as [|fuel IH]; intros depth b s alpha beta p v Hp Hv;
    [discriminate|].
  cbn [full_minimax] in Hv. cbn [minimaxHelper].
  destruct (depth =? 0).
  { inversion Hv; subst. destruct (searching_evaluate p b Hp) as [E Hq].
    exists (fst (evaluate p b)), (snd (evaluate p b)).
    rewrite <- surjective_pairing. split; [reflexivity|]. split; [exact Hq|].
    rewrite E. apply bounded_result_exact. }
  unfold possible_moves.
  destruct (getPossibleMoves b s) as [|m ms] eqn:M.
  { inversion Hv; subst.
    set (p' := alloc_moves _ p).
    destruct (searching_evaluate p' b (searching_alloc_moves p _ Hp)) as [E Hq].
    exists (fst (evaluate p' b)), (snd (evaluate p' b)).
    rewrite <- surjective_pairing. split; [reflexivity|]. split; [exact Hq|].
    rewrite E. apply bounded_result_exact. }
  destruct (pred_overflows depth); [discriminate|].
  set (p' := alloc_moves _ p).
  pose proof (searching_alloc_moves p (Z.of_nat (List.length (m :: ms))) Hp) as Hp'.
  fold p' in Hp'.
  rewrite (searching_side _ Hp'). unfold bounded_result. fold agent.
  destruct (Side_eqb s agent).
  - destruct (full_minimax _ _ _ fuel _ _ opponent) as [x| |] eqn:Hx;
      cbn [bind] in Hv; try discriminate.
    destruct (mapM _ ms) as [xs| |] eqn:Hxs; cbn [bind] in Hv; try discriminate.
    inversion Hv; subst v.
    destruct (max_loop_refines _ _ b s beta (IH (depth - 1)) (m :: ms) INT_MIN
                               p' (x :: xs) Hp')
      as (r & q & E & Hq & Hr).
    { cbn [mapM]. rewrite Hx. cbn [bind]. rewrite Hxs. reflexivity. }
    exists r, q. split; [exact E|]. split; [exact Hq|].
    cbv zeta in Hr. cbn [fold_left] in Hr.
    pose proof (full_minimax_in_int _ _ _ _ _ Hx) as Ix.
    replace (Z.max INT_MIN x) with x in Hr by (unfold in_int in Ix; lia).
    exact Hr.
  - destruct (full_minimax _ _ _ fuel _ _ agent) as [x| |] eqn:Hx;
      cbn [bind] in Hv; try discriminate.
    destruct (mapM _ ms) as [xs| |] eqn:Hxs; cbn [bind] in Hv; try discriminate.
    inversion Hv; subst v.
    destruct (min_loop_refines _ _ b s alpha (IH (depth - 1)) (m :: ms) INT_MAX
                               p' (x :: xs) Hp')
      as (r & q & E & Hq & Hr).
    { cbn [mapM]. rewrite Hx. cbn [bind]. rewrite Hxs. reflexivity. }
    exists r, q. split; [exact E|]. split; [exact Hq|].
    cbv zeta in Hr. cbn [fold_left] in Hr.
    pose proof (full_minimax_in_int _ _ _ _ _ Hx) as Ix.
    replace (Z.min INT_MAX x) with x in Hr by (unfold in_int in Ix; lia).
    exact Hr.
Qed.

(** The loop of [findMinimaxMove]: its [alpha] ends as the maximum of the
    [alpha] at its start and the values of the moves, and a best move that
    is set stays set. *)
Lemma root_loop_refines rec full b :
  rec_refines p0 rec full ->
  forall moves alpha best p vs,
    searching p0 p -> _board p0 = b ->
    mapM (fun im => full (Board_doMove b (Some (snd im)) agent) opponent) moves
    = Ok vs ->
    exists r q,
      root_loop rec moves alpha INT_MAX best p = Ok (r, q) /\ searching p0 q /\
      root_alpha r = fold_left Z.max vs alpha /\
      (best <> None -> root_best r <> None) /\
      (forall im x rest xs, moves = im :: rest -> vs = x :: xs -> alpha <= x ->
                            root_best r <> None).
Proof.
  intros Hrec. induction moves as [|[i m] rest IH]; intros alpha best p vs Hp Hb Hvs.
  - apply mapM_nil in Hvs. subst vs. exists (mkRoot alpha best []), p.
    split; [reflexivity|]. split; [exact Hp|]. cbn.
    split; [reflexivity|]. split; [auto | discriminate].
  - apply mapM_cons in Hvs. destruct Hvs as (x & xs & Hx & Hxs & ->).
    cbn [root_loop snd] in *.
    pose proof (searching_alloc_boards p 1 Hp) as Hp1.
    rewrite (searching_opponent _ Hp1), (searching_side _ Hp1).
    replace (_board (alloc_boards 1 p)) with b
      by (destruct Hp1 as [(_ & _ & _ & E) _]; congruence).
    destruct (Hrec _ _ alpha INT_MAX _ _ Hp1 Hx) as (r1 & q1 & E & Hq1 & Hbr).
    rewrite E. cbn [bind].
    unfold bounded_result in Hbr. fold agent in Hbr.
    rewrite opponent_not_agent in Hbr.
    cbn [fold_left].
    destruct (alpha <=? r1) eqn:L.
    + apply Z.leb_le in L.
      assert (Hr1 : r1 = Z.max alpha x) by lia.
      set (q2 := alloc_boards (-1) _).
      assert (Hq2 : searching p0 q2).
      { subst q2. apply searching_alloc_boards.
        destruct (differs_from_best i (Some (i, m))); auto. }
      destruct (IH r1 (Some (i, m)) q2 xs Hq2 Hb Hxs)
        as (r & q & E' & Hq & Ha & Hkeep & _).
      rewrite E'. cbn [bind]. eexists; eexists.
      split; [reflexivity|]. split; [exact Hq|].
      cbn [root_alpha root_best]. rewrite Ha, Hr1.
      split; [reflexivity|].
      split; intros; apply Hkeep; discriminate.
    + apply Z.leb_gt in L.
      assert (Hr1 : alpha = Z.max alpha x) by lia.
      set (q2 := alloc_boards (-1) _).
      assert (Hq2 : searching p0 q2).
      { subst q2. apply searching_alloc_boards.
        destruct (differs_from_best i best); auto. }
      destruct (IH alpha best q2 xs Hq2 Hb Hxs)
        as (r & q & E' & Hq & Ha & Hkeep & _).
      rewrite E'. cbn [bind]. eexists; eexists.
      split; [reflexivity|]. split; [exact Hq|].
      cbn [root_alpha root_best]. rewrite Ha, <- Hr1.
      split; [reflexivity|]. split; [exact Hkeep|].
      intros im x' rest' xs' _ Hxx Hle. inversion Hxx; subst. lia.
Qed.

Lemma mapM_combine_seq {A B} (f : A -> res B) (l : list A) :
  forall s,
    mapM (fun im => f (snd im)) (combine (seq s (List.length l)) l) = mapM f l.
Proof.
  induction l as [|a l IH]; intros s; [reflexivity|].
  cbn [List.length seq combine mapM snd]. now rewrite IH.
Qed.

Lemma mapM_total {A B} (f : A -> res B) (l : list A) :
  (forall x, exists y, f x = Ok y) -> exists ys, mapM f l = Ok ys.
Proof.
  intros Hf. induction l as [|a l [ys IH]]; [now exists []|].
  destruct (Hf a) as [y Hy]. exists (y :: ys).
  cbn [mapM]. now rewrite Hy, IH.
Qed.

(** With a depth that is not negative, fuel above the depth suffices for
    full minimax. *)
Lemma full_minimax_total fuel :
  forall depth b s,
    0 <= depth < Z.of_nat fuel ->
    exists v, full_minimax agent opponent value fuel depth b s = Ok v.
Proof.
  induction fuel as [|fuel IH]; intros depth b s Hd; [lia|].
  cbn [full_minimax].
  destruct (depth =? 0) eqn:D; [eauto|]. apply Z.eqb_neq in D.
  destruct (getPossibleMoves b s) as [|m ms]; [eauto|].
  rewrite pred_overflows_pos by lia.
  destruct (Side_eqb s agent).
  - destruct (IH (depth - 1) (Board_doMove b (Some m) s) opponent ltac:(lia))
      as [x Hx].
    destruct (mapM_total (fun m' => full_minimax agent opponent value fuel
                  (depth - 1) (Board_doMove b (Some m') s) opponent) ms)
      as [xs Hxs].
    { intros m'. apply IH. lia. }
    rewrite Hx. cbn [bind]. rewrite Hxs. cbn [bind]. eauto.
  - destruct (IH (depth - 1) (Board_doMove b (Some m) s) agent ltac:(lia))
      as [x Hx].
    destruct (mapM_total (fun m' => full_minimax agent opponent value fuel
                  (depth - 1) (Board_doMove b (Some m') s) agent) ms)
      as [xs Hxs].
    { intros m'. apply IH. lia. }
    rewrite Hx. cbn [bind]. rewrite Hxs. cbn [bind]. eauto.
Qed.

(** C1. The alpha-beta search of [findMinimaxMove] ends with the best
    score of full minimax without pruning, for the same depth and the same
    evaluator: whenever the full search gives a best score at the root on
    some fuel, the loop of [findMinimaxMove] returns on that fuel and its
    best score is the same (none when the agent has no move).  For a depth
    of at least 1 and fuel from the depth up, both searches return.  The
    player is one whose table is consistent with the evaluator, as it is
    from the constructor on. *)
Theorem C1_alpha_beta_is_minimax (fuel : nat) (depth : Z) :
  table_consistent p0 ->
  (forall v, full_minimax_root p0 fuel depth = Ok v ->
             exists r q, root_search fuel depth p0 = Ok (r, q) /\
                         root_best_score r = v) /\
  (1 <= depth <= Z.of_nat fuel ->
   exists v, full_minimax_root p0 fuel depth = Ok v).
Proof.
  intros Hc.
  assert (Hp0 : searching p0 p0) by (split; [apply same_game_refl | exact Hc]).
  split.
  - intros v Hv. unfold full_minimax_root in Hv.
    unfold root_search, possible_moves.
    destruct (getPossibleMoves (_board p0) (_side p0)) as [|m ms] eqn:M.
    + inversion Hv; subst. eexists; eexists. split; reflexivity.
    + destruct (pred_overflows depth); [discriminate|].
      destruct (full_minimax _ _ _ fuel _ _ _) as [x| |] eqn:Hx;
        cbn [bind] in Hv; try discriminate.
      destruct (mapM _ ms) as [xs| |] eqn:Hxs; cbn [bind] in Hv; try discriminate.
      inversion Hv; subst v.
      set (p' := alloc_moves _ p0).
      destruct (root_loop_refines _ _ (_board p0)
                  (minimaxHelper_refines fuel (depth - 1))
                  (combine (seq 0 (List.length (m :: ms))) (m :: ms))
                  INT_MIN None p' (x :: xs)
                  (searching_alloc_moves p0 _ Hp0) eq_refl)
        as (r & q & E & _ & Ha & _ & Hset).
      { rewrite (mapM_combine_seq
                   (fun m' => full_minimax agent opponent value fuel (depth - 1)
                                (Board_doMove (_board p0) (Some m') agent)
                                opponent)).
        cbn [mapM]. fold agent opponent value in Hx, Hxs.
        rewrite Hx. cbn [bind]. rewrite Hxs. reflexivity. }
      exists r, q. split; [exact E|].
      pose proof (full_minimax_in_int _ _ _ _ _ Hx) as Ix.
      unfold root_best_score.
      destruct (root_best r) eqn:B.
      * rewrite Ha. cbn [fold_left]. unfold maximum.
        replace (Z.max INT_MIN x) with x by (unfold in_int in Ix; lia).
        reflexivity.
      * exfalso.
        apply (Hset (0%nat, m) x (combine (seq 1 (List.length ms)) ms) xs
                    eq_refl eq_refl); [unfold in_int in Ix; lia | reflexivity].
  - intros Hd. unfold full_minimax_root.
    destruct (getPossibleMoves (_board p0) (_side p0)) as [|m ms]; [eauto|].
    rewrite pred_overflows_pos by lia.
    destruct (full_minimax_total fuel (depth - 1)
                (Board_doMove (_board p0) (Some m) (_side p0)) opponent
                ltac:(lia)) as [x Hx].
    destruct (mapM_total (fun m' => full_minimax agent opponent value fuel
                  (depth - 1) (Board_doMove (_board p0) (Some m') (_side p0))
                  opponent) ms) as [xs Hxs].
    { intros m'. apply full_minimax_total. lia. }
    unfold agent, opponent, value in Hx, Hxs.
    rewrite Hx. cbn [bind]. rewrite Hxs. cbn [bind]. eauto.
Qed.

End Refinement.

(** ** The opening precomputation *)

Section Opening.

Context {BO : BoardOps} {TO : TableOps} {PA : Params}.

Lemma table_keys_find p k :
  In k (table_keys p) <-> exists v, tbl_find (_table p) k = Some v.
Proof.
  unfold table_keys. split.
  - intros H. apply in_map_iff in H. destruct H as [[k' v] [E H]].
    cbn in E. subst k'. exists v. now apply tbl_find_In.
  - intros [v H]. eapply tbl_find_key_In; eauto.
Qed.

Lemma table_keys_length p :
  Z.of_nat (List.length (table_keys p)) = tbl_size (_table p).
Proof. unfold table_keys. now rewrite length_map, tbl_size_spec. Qed.

(** Below the bound of 100000 a call of [evaluate] keeps every key and
    leaves the key of its board in the table. *)
Lemma evaluate_keys p b k :
  testingMinimax p = false -> tbl_size (_table p) < 100000 ->
  In k (table_keys p) \/ k = board_hash p b ->
  In k (table_keys (snd (evaluate p b))).
Proof.
  intros T S H. apply table_keys_find.
  assert (L : (100000 <=? tbl_size (_table p)) = false) by (apply Z.leb_gt; lia).
  destruct (tbl_find (_table p) (board_hash p b)) as [v|] eqn:F.
  - rewrite (evaluate_hit p b v T F). cbn [snd _table log_op].
    destruct H as [H| ->]; [now apply table_keys_find | eauto].
  - rewrite (evaluate_miss p b T F). cbn [snd _table log_op set_table].
    assert (Hb : _table (before_store p b) = _table p)
      by (now rewrite before_store_table, L).
    rewrite Hb.
    destruct H as [H| ->].
    + apply table_keys_find in H. destruct H as [v H]. exists v.
      apply tbl_find_assign_iff; auto.
    + eexists. now apply tbl_find_assign_same.
Qed.

Lemma evaluate_testing_flag p b :
  testingMinimax (snd (evaluate p b)) = testingMinimax p.
Proof. now destruct (evaluate_same_game p b) as (E & _). Qed.

Lemma opening_body_eq p curr rest :
  let n := Z.of_nat (List.length (getPossibleMoves (snd curr) (fst curr))) in
  opening_body p curr rest =
  (alloc_boards (-1)
     (alloc_boards n (alloc_moves n (snd (evaluate p (snd curr))))),
   rest ++ opening_children curr).
Proof.
  unfold opening_body, possible_moves, opening_children.
  now destruct (evaluate p (snd curr)).
Qed.

Lemma bfs_boards_cons n curr rest :
  bfs_boards (S n) (curr :: rest) =
  snd curr :: bfs_boards n (rest ++ opening_children curr).
Proof. reflexivity. Qed.

Lemma nodup_length_incl (l1 l2 : list string) :
  incl l1 l2 ->
  (List.length (nodup string_dec l1) <= List.length (nodup string_dec l2))%nat.
Proof.
  intros H. apply NoDup_incl_length; [apply NoDup_nodup|].
  intros x Hx. apply nodup_In. apply H. eapply nodup_In; eauto.
Qed.

(** The table never grows beyond 25000 entries at the head of the loop. *)
Lemma opening_after_bound n :
  forall p positions,
    tbl_size (_table p) <= 25000 ->
    tbl_size (_table (fst (opening_after n p positions))) <= 25000.
Proof.
  induction n as [|n IH]; intros p positions Hp; cbn [opening_after]; [exact Hp|].
  destruct (tbl_size (_table p) <? 25000) eqn:L; [|exact Hp].
  apply Z.ltb_lt in L.
  destruct positions as [|curr rest]; [exact Hp|].
  pose proof (opening_body_eq p curr rest) as E. cbv zeta in E. rewrite E.
  apply IH. cbn [_table alloc_boards alloc_moves].
  pose proof (evaluate_size p (snd curr)) as [H1 _]. lia.
Qed.

(** When the loop stops, the table has exactly 25000 entries. *)
Lemma opening_loop_exact fuel :
  forall p positions q positions',
    tbl_size (_table p) <= 25000 ->
    opening_loop fuel p positions = Ok (q, positions') ->
    tbl_size (_table q) = 25000.
Proof.
  induction fuel as [|fuel IH]; intros p positions q positions' Hp H;
    cbn [opening_loop] in H;
    destruct (tbl_size (_table p) <? 25000) eqn:L;
    try discriminate;
    try (apply Z.ltb_ge in L; inversion H; subst; lia).
  apply Z.ltb_lt in L.
  destruct positions as [|curr rest]; [discriminate|].
  pose proof (opening_body_eq p curr rest) as E. cbv zeta in E.
  rewrite E in H. eapply IH; [|exact H].
  cbn [_table alloc_boards alloc_moves].
  pose proof (evaluate_size p (snd curr)) as [H1 _]. lia.
Qed.

(** The loop stops once the keys of the table and of the boards that it
    takes from the queue make 25000. *)
Lemma opening_loop_halts n :
  forall p positions,
    testingMinimax p = false ->
    tbl_size (_table p) <= 25000 ->
    25000 <= Z.of_nat (List.length
                         (nodup string_dec
                                (table_keys p ++
                                 map (board_hash p) (bfs_boards n positions)))) ->
    exists q positions', opening_loop n p positions = Ok (q, positions').
Proof.
  assert (Hstop : forall p l,
             tbl_size (_table p) < 25000 ->
             25000 <= Z.of_nat (List.length (nodup string_dec (table_keys p ++ l))) ->
             l <> []).
  { intros p l Hs Hl ->. rewrite app_nil_r in Hl.
    rewrite nodup_fixed_point in Hl by apply tbl_keys_NoDup.
    pose proof (table_keys_length p). lia. }
  induction n as [|n IH]; intros p positions T Hp Hd; cbn [opening_loop];
    destruct (tbl_size (_table p) <? 25000) eqn:L; eauto;
    apply Z.ltb_lt in L; pose proof (Hstop _ _ L Hd) as Hne.
  - now destruct Hne.
  - destruct positions as [|curr rest]; [now destruct Hne|].
    pose proof (opening_body_eq p curr rest) as E. cbv zeta in E. rewrite E.
    set (p' := alloc_boards (-1) _).
    assert (G : same_game p p').
    { destruct (evaluate_same_game p (snd curr)) as (A & B & C & D).
      repeat split; assumption. }
    apply IH.
    + destruct G as (A & _). congruence.
    + subst p'. cbn [_table alloc_boards alloc_moves].
      pose proof (evaluate_size p (snd curr)) as [H1 _]. lia.
    + eapply Z.le_trans; [exact Hd|]. apply Nat2Z.inj_le.
      apply nodup_length_incl.
      rewrite bfs_boards_cons. intros k Hk.
      apply in_app_iff in Hk. apply in_app_iff.
      assert (Hev : In k (table_keys p) \/ k = board_hash p (snd curr) ->
                    In k (table_keys p')).
      { intros H. subst p'. unfold table_keys.
        cbn [_table alloc_boards alloc_moves].
        apply (evaluate_keys p (snd curr) k T ltac:(lia) H). }
      destruct Hk as [Hk|Hk]; [left; auto|].
      cbn [map] in Hk. destruct Hk as [Hk|Hk]; [left; auto|].
      right. erewrite map_ext; [exact Hk|].
      intros b. now apply board_hash_same_game.
Qed.

(** C3, as the code has it.  For a player as the constructor makes it
    (table in use and empty): the table never holds more than 25000 entries
    at any round of the loop of [computeOpening]; when [computeOpening]
    returns, the table holds exactly 25000 entries; and it returns once the
    boards that the breadth-first order reaches give 25000 distinct
    keys. *)
Theorem C3_opening_stops_at_bound (p : Player) :
  testingMinimax p = false ->
  tbl_entries (_table p) = [] ->
  (forall n,
      tbl_size (_table (fst (opening_after n (fst (opening_start p))
                                           (snd (opening_start p)))))
      <= 25000) /\
  (forall fuel q, computeOpening fuel p = Ok q -> tbl_size (_table q) = 25000) /\
  (forall n fuel,
      25000 <= distinct_hashes p (bfs_boards n (snd (opening_start p))) ->
      (n <= fuel)%nat ->
      exists q, computeOpening fuel p = Ok q /\ tbl_size (_table q) = 25000).
Proof.
  intros T Hempty.
  assert (Hs : tbl_size (_table (fst (opening_start p))) <= 25000).
  { cbn. rewrite tbl_size_spec, Hempty. cbn. lia. }
  assert (Hexact : forall fuel q,
             computeOpening fuel p = Ok q -> tbl_size (_table q) = 25000).
  { intros fuel q H. unfold computeOpening in H.
    cbn [opening_start] in H.
    destruct (opening_loop fuel _ _) as [[q' pos']| |] eqn:E;
      cbn [bind] in H; try discriminate.
    inversion H; subst. cbn [_table alloc_boards].
    eapply opening_loop_exact; [|exact E]. exact Hs. }
  split; [|split].
  - intros n. apply opening_after_bound. exact Hs.
  - exact Hexact.
  - intros n fuel Hd Hn.
    assert (Hrun : exists q positions',
               opening_loop n (fst (opening_start p)) (snd (opening_start p))
               = Ok (q, positions')).
    { apply opening_loop_halts; [exact T | exact Hs |].
      unfold table_keys. cbn [opening_start fst snd _table alloc_boards].
      rewrite Hempty. exact Hd. }
    destruct Hrun as (q & pos' & Hrun).
    assert (Hmono : forall k m p1 pos1 r,
               opening_loop k p1 pos1 = Ok r -> (k <= m)%nat ->
               opening_loop m p1 pos1 = Ok r).
    { induction k as [|k IHk]; intros m p1 pos1 r H Hm;
        destruct m as [|m]; try lia; cbn [opening_loop] in *;
        destruct (tbl_size (_table p1) <? 25000); try discriminate; auto.
      destruct pos1 as [|c rs]; [discriminate|].
      destruct (opening_body p1 c rs) as [p2 pos2].
      apply IHk; [exact H | lia]. }
    pose proof (Hmono _ _ _ _ _ Hrun Hn) as Hrun'.
    assert (E : computeOpening fuel p =
                Ok (alloc_boards (- Z.of_nat (List.length pos')) q)).
    { unfold computeOpening, opening_start in *. cbn [fst snd] in Hrun'.
      cbv beta iota. now rewrite Hrun'. }
    eexists. split; [exact E|]. eapply Hexact; exact E.
Qed.

End Opening.

(** * Further properties of the code *)

(** ** Arithmetic of [int] and [size_t] *)

Lemma eq32_refl a : eq32 a a.
Proof. reflexivity. Qed.

Lemma eq32_trans a b c : eq32 a b -> eq32 b c -> eq32 a c.
Proof. unfold eq32. congruence. Qed.

Lemma eq32_add a a' b b' : eq32 a a' -> eq32 b b' -> eq32 (a + b) (a' + b').
Proof.
  unfold eq32. intros Ha Hb.
  rewrite (Z.add_mod a b), (Z.add_mod a' b') by lia. now rewrite Ha, Hb.
Qed.

Lemma eq32_sub a a' b b' : eq32 a a' -> eq32 b b' -> eq32 (a - b) (a' - b').
Proof.
  unfold eq32. intros Ha Hb.
  rewrite (Zminus_mod a b), (Zminus_mod a' b'). now rewrite Ha, Hb.
Qed.

Lemma eq32_mul a a' b b' : eq32 a a' -> eq32 b b' -> eq32 (a * b) (a' * b').
Proof.
  unfold eq32. intros Ha Hb.
  rewrite (Z.mul_mod a b), (Z.mul_mod a' b') by lia. now rewrite Ha, Hb.
Qed.

Lemma eq32_to_size_t z : eq32 (to_size_t z) z.
Proof.
  unfold eq32, to_size_t. change mask64 with (Z.ones 64).
  rewrite Z.land_ones by lia. apply Z.mod_mod_divide.
  exists (2 ^ 32). reflexivity.
Qed.

Lemma eq32_to_int z : eq32 (to_int z) z.
Proof.
  unfold eq32, to_int, two_p31. change mask32 with (Z.ones 32).
  rewrite Z.land_ones by lia. rewrite Zminus_mod_idemp_l.
  f_equal. lia.
Qed.

Lemma to_int_eq32 a b : eq32 a b -> to_int a = to_int b.
Proof.
  unfold eq32, to_int, two_p31. intros H. change mask32 with (Z.ones 32).
  rewrite !Z.land_ones by lia.
  rewrite <- (Zplus_mod_idemp_l a), <- (Zplus_mod_idemp_l b). now rewrite H.
Qed.

Lemma eq32_int_add_assign s e : eq32 (int_add_assign s e) (s + e).
Proof.
  unfold int_add_assign.
  eapply eq32_trans; [apply eq32_to_int|].
  eapply eq32_trans; [apply eq32_to_size_t|].
  apply eq32_add; [apply eq32_to_size_t | apply eq32_refl].
Qed.

Lemma eq32_int_sub_assign s e : eq32 (int_sub_assign s e) (s - e).
Proof.
  unfold int_sub_assign.
  eapply eq32_trans; [apply eq32_to_int|].
  eapply eq32_trans; [apply eq32_to_size_t|].
  apply eq32_sub; [apply eq32_to_size_t | apply eq32_refl].
Qed.

Lemma eq32_size_mul w c : eq32 (size_mul w c) (w * c).
Proof.
  unfold size_mul.
  eapply eq32_trans; [apply eq32_to_size_t|].
  apply eq32_mul; [apply eq32_to_size_t | apply eq32_refl].
Qed.

Lemma eq32_size_sub a b : eq32 (size_sub a b) (a - b).
Proof. apply eq32_to_size_t. Qed.

Lemma land_range a x : (a < 2 ^ 64)%N -> (N.land a x < 2 ^ 64)%N.
Proof.
  intros Ha. rewrite <- (N.mod_small a (2 ^ 64)) by exact Ha.
  rewrite <- N.land_ones, <- N.land_assoc, (N.land_comm (N.ones 64) x),
    N.land_assoc, N.land_ones.
  apply N.mod_lt. discriminate.
Qed.

Section EvaluateMore.

Context {BO : BoardOps} {TO : TableOps} {PA : Params}.

Lemma white_cells_range b : (white_cells b < 2 ^ 64)%N.
Proof. apply land_range, taken_range. Qed.

(** The score that [evaluate] computes in [int] and [size_t] arithmetic is
    the heuristic over the integers, up to the low 32 bits. *)
Lemma heuristic_score_eq32 p b :
  eq32 (heuristic_score p b)
       (match _side p with
        | BLACK => heuristic_value b
        | WHITE => - heuristic_value b
        end).
Proof.
  unfold heuristic_score. fold (white_cells b).
  set (s1 := int_add_assign 0 _).
  set (s2 := int_add_assign s1 _).
  set (s3 := int_add_assign s2 _).
  set (s4 := int_sub_assign s3 _).
  set (s5 := int_sub_assign s4 _).
  assert (H1 : eq32 s1 (popcount (black b) - popcount (white_cells b))).
  { subst s1. eapply eq32_trans; [apply eq32_int_add_assign|].
    apply (eq32_add 0 0); [apply eq32_refl | apply eq32_size_sub]. }
  assert (H2 : eq32 s2 (popcount (black b) - popcount (white_cells b)
                        + EDGEWEIGHT * popcount (N.land (black b) EDGES))).
  { subst s2. eapply eq32_trans; [apply eq32_int_add_assign|].
    apply eq32_add; [exact H1 | apply eq32_size_mul]. }
  assert (H3 : eq32 s3 (popcount (black b) - popcount (white_cells b)
                        + EDGEWEIGHT * popcount (N.land (black b) EDGES)
                        + CORNERWEIGHT * popcount (N.land (black b) CORNERS))).
  { subst s3. eapply eq32_trans; [apply eq32_int_add_assign|].
    apply eq32_add; [exact H2 | apply eq32_size_mul]. }
  assert (H4 : eq32 s4 (popcount (black b) - popcount (white_cells b)
                        + EDGEWEIGHT * popcount (N.land (black b) EDGES)
                        + CORNERWEIGHT * popcount (N.land (black b) CORNERS)
                        - EDGEWEIGHT * popcount (N.land (white_cells b) EDGES))).
  { subst s4. eapply eq32_trans; [apply eq32_int_sub_assign|].
    apply eq32_sub; [exact H3 | apply eq32_size_mul]. }
  assert (H5 : eq32 s5 (heuristic_value b)).
  { subst s5. eapply eq32_trans; [apply eq32_int_sub_assign|].
    eapply eq32_trans; [apply eq32_sub; [exact H4 | apply eq32_size_mul]|].
    unfold heuristic_value, eq32. f_equal. ring. }
  destruct (_side p); [exact H5|].
  eapply eq32_trans; [apply eq32_to_int|].
  replace (- heuristic_value b) with (heuristic_value b * -1) by ring.
  apply eq32_mul; [exact H5 | apply eq32_refl].
Qed.

Lemma heuristic_value_bound b :
  - 2 ^ 20 <= EDGEWEIGHT <= 2 ^ 20 ->
  - 2 ^ 20 <= CORNERWEIGHT <= 2 ^ 20 ->
  - 2 ^ 28 <= heuristic_value b <= 2 ^ 28.
Proof.
  intros He Hc. unfold heuristic_value.
  pose proof (TreeBoard.popcount_range _ (black_range b)).
  pose proof (TreeBoard.popcount_range _ (white_cells_range b)).
  pose proof (TreeBoard.popcount_range _ (land_range _ EDGES (black_range b))).
  pose proof (TreeBoard.popcount_range _ (land_range _ CORNERS (black_range b))).
  pose proof (TreeBoard.popcount_range _
                (land_range _ EDGES (white_cells_range b))).
  pose proof (TreeBoard.popcount_range _
                (land_range _ CORNERS (white_cells_range b))).
  nia.
Qed.

(** X5. With weights of at most [2^20] in absolute value, the score that
    [evaluate] computes on a miss is exactly the heuristic over the
    integers: coin count plus weighted edges and corners, black minus
    white, negated when the agent plays White.  The detour through the
    unsigned [size_t] results of [count()] does not change it. *)
Theorem heuristic_score_exact (p : Player) (b : Board) :
  - 2 ^ 20 <= EDGEWEIGHT <= 2 ^ 20 ->
  - 2 ^ 20 <= CORNERWEIGHT <= 2 ^ 20 ->
  heuristic_score p b =
  match _side p with
  | BLACK => heuristic_value b
  | WHITE => - heuristic_value b
  end.
Proof.
  intros He Hc.
  pose proof (heuristic_value_bound b He Hc) as Hb.
  pose proof (heuristic_score_eq32 p b) as H.
  pose proof (heuristic_score_in_int p b) as Hi.
  rewrite <- (to_int_id _ Hi). rewrite (to_int_eq32 _ _ H).
  apply to_int_id. unfold in_int, INT_MIN, INT_MAX, two_p31.
  destruct (_side p); lia.
Qed.

(** X1. The key under which [evaluate] stores a board determines the
    cells of the board: two boards have the same key exactly when they have
    the same black cells and the same taken cells. *)
Theorem board_hash_inj (p : Player) (b b' : Board) :
  board_hash p b = board_hash p b' <->
  black b = black b' /\ taken b = taken b'.
Proof.
  split.
  - unfold board_hash. intros E.
    destruct (_side p); apply make_hash_inj in E; destruct E as [E1 E2].
    + auto.
    + split; [|exact E2].
      rewrite (black_of_white (black b) (taken b)
                 (black_range b) (taken_range b) (black_taken b)).
      rewrite (black_of_white (black b') (taken b')
                 (black_range b') (taken_range b') (black_taken b')).
      now rewrite E1, E2.
  - intros [E1 E2]. unfold board_hash. now rewrite E1, E2.
Qed.

(** X2. The table does not change what [evaluate] returns: when every
    entry of the table is the score of its boards, a call returns the score
    that it would compute without the table, hit or miss, and leaves
    a table of which the same holds, also after an eviction. *)
Theorem evaluate_cache_transparent (p : Player) (b : Board) :
  table_consistent p ->
  fst (evaluate p b) = static_value p b /\
  table_consistent (snd (evaluate p b)).
Proof. apply evaluate_consistent. Qed.

(** X3. A call of [evaluate] never makes the table smaller and adds at most
    one entry; it adds one exactly on a miss below the bound of 100000. *)
Theorem evaluate_size_step (p : Player) (b : Board) :
  let n := tbl_size (_table p) in
  let n' := tbl_size (_table (snd (evaluate p b))) in
  n <= n' <= n + 1 /\
  (n' = n + 1 <->
   testingMinimax p = false /\
   tbl_find (_table p) (board_hash p b) = None /\ n < 100000).
Proof.
  cbv zeta.
  destruct (evaluate_cases p b) as [[T E]|[(v & T & F & E)|(T & F & E)]];
    rewrite E; cbn [snd _table log_op set_table].
  - split; [lia|]. split; [lia | intros (H & _); congruence].
  - split; [lia|]. split; [lia | intros (_ & H & _); congruence].
  - rewrite tbl_size_assign_new by (now apply before_store_find_None).
    rewrite before_store_table.
    destruct (100000 <=? tbl_size (_table p)) eqn:L.
    + apply Z.leb_le in L. rewrite tbl_size_erase_begin by lia.
      split; [lia|]. split; [lia | intros (_ & _ & H); lia].
    + apply Z.leb_gt in L. split; [lia|]. split; auto.
Qed.

(** X4. [evaluate] never changes the score of a key: every entry of the
    table after a call is the entry that the call stored or an entry of the
    table before it.  Below the bound of 100000 no entry is lost. *)
Theorem evaluate_keeps_entries (p : Player) (b : Board) (k : string) (v : Z) :
  (tbl_find (_table (snd (evaluate p b))) k = Some v ->
   (k = board_hash p b /\ v = heuristic_score p b) \/
   tbl_find (_table p) k = Some v) /\
  (tbl_size (_table p) < 100000 ->
   tbl_find (_table p) k = Some v ->
   tbl_find (_table (snd (evaluate p b))) k = Some v).
Proof.
  destruct (evaluate_cases p b) as [[T E]|[(w & T & F & E)|(T & F & E)]];
    rewrite E; cbn [snd _table log_op set_table]; try tauto.
  split.
  - rewrite tbl_find_assign_iff by (now apply before_store_find_None).
    intros [H|H]; [now left | right].
    now apply before_store_find_Some in H.
  - intros L H.
    rewrite tbl_find_assign_iff by (now apply before_store_find_None).
    right. rewrite before_store_table.
    assert (L' : (100000 <=? tbl_size (_table p)) = false)
      by (apply Z.leb_gt; lia).
    now rewrite L'.
Qed.

End EvaluateMore.

(** ** What the searches keep *)

Section Invariant.

Context {BO : BoardOps} {TO : TableOps} {PA : Params}.

(** A property of players that [evaluate] keeps and that does not depend
    on the counts of live objects. *)
Variable I : Player -> Prop.
Hypothesis I_evaluate : forall p b, I p -> I (snd (evaluate p b)).
Hypothesis I_boards : forall p n, I p -> I (alloc_boards n p).
Hypothesis I_moves : forall p n, I p -> I (alloc_moves n p).

Lemma max_loop_keeps rec b s beta :
  rec_keeps I rec ->
  forall moves alpha p r q,
    I p -> max_loop rec b s moves alpha beta p = Ok (r, q) -> I q.
Proof.
  intros Hrec. induction moves as [|m rest IH]; intros alpha p r q Hp H;
    cbn [max_loop] in H.
  - inversion H; subst. exact Hp.
  - destruct (rec _ _ _ _ _) as [[r1 q1]| |] eqn:E; cbn [bind] in H;
      try discriminate.
    pose proof (Hrec _ _ _ _ _ _ _ (I_boards p 1 Hp) E) as Hq1.
    destruct (beta <=? Z.max alpha r1).
    + inversion H; subst. exact Hq1.
    + eapply IH; [|exact H]. auto.
Qed.

Lemma min_loop_keeps rec b s alpha :
  rec_keeps I rec ->
  forall moves beta p r q,
    I p -> min_loop rec b s moves alpha beta p = Ok (r, q) -> I q.
Proof.
  intros Hrec. induction moves as [|m rest IH]; intros beta p r q Hp H;
    cbn [min_loop] in H.
  - inversion H; subst. exact Hp.
  - destruct (rec _ _ _ _ _) as [[r1 q1]| |] eqn:E; cbn [bind] in H;
      try discriminate.
    pose proof (Hrec _ _ _ _ _ _ _ (I_boards p 1 Hp) E) as Hq1.
    destruct (Z.min beta r1 <=? alpha).
    + inversion H; subst. exact Hq1.
    + eapply IH; [|exact H]. auto.
Qed.

Lemma minimaxHelper_keeps fuel :
  forall depth,
    rec_keeps I (fun b s a bt q => minimaxHelper fuel depth b s a bt q).
Proof.
  induction fuel as [|fuel IH]; intros depth b s alpha beta p r q Hp H;
    [discriminate|].
  cbn [minimaxHelper] in H.
  destruct (depth =? 0).
  { inversion H; subst. change q with (snd (r, q)). rewrite <- H1. auto. }
  unfold possible_moves in H.
  destruct (getPossibleMoves b s) as [|m ms].
  { inversion H; subst. change q with (snd (r, q)). rewrite <- H1. auto. }
  destruct (pred_overflows depth); [discriminate|].
  destruct (Side_eqb s _).
  - eapply max_loop_keeps; [apply (IH (depth - 1)) | | exact H]. auto.
  - eapply min_loop_keeps; [apply (IH (depth - 1)) | | exact H]. auto.
Qed.

Lemma root_loop_keeps rec beta :
  rec_keeps I rec ->
  forall moves alpha best p r q,
    I p -> root_loop rec moves alpha beta best p = Ok (r, q) -> I q.
Proof.
  intros Hrec. induction moves as [|[i m] rest IH]; intros alpha best p r q Hp H;
    cbn [root_loop] in H.
  - inversion H; subst. exact Hp.
  - destruct (rec _ _ _ _ _) as [[r1 q1]| |] eqn:E; cbn [bind] in H;
      try discriminate.
    pose proof (Hrec _ _ _ _ _ _ _ (I_boards p 1 Hp) E) as Hq1.
    destruct (alpha <=? r1).
    + destruct (root_loop _ _ _ _ _ _) as [[r2 q2]| |] eqn:E2;
        cbn [bind] in H; try discriminate.
      inversion H; subst. eapply IH; [|exact E2].
      apply I_boards. destruct (differs_from_best _ _); auto.
    + destruct (root_loop _ _ _ _ _ _) as [[r2 q2]| |] eqn:E2;
        cbn [bind] in H; try discriminate.
      inversion H; subst. eapply IH; [|exact E2].
      apply I_boards. destruct (differs_from_best _ _); auto.
Qed.

Lemma root_search_keeps fuel depth p r q :
  I p -> root_search fuel depth p = Ok (r, q) -> I q.
Proof.
  intros Hp H. unfold root_search, possible_moves in H.
  destruct (getPossibleMoves (_board p) (_side p)) as [|m ms].
  - inversion H; subst. auto.
  - destruct (pred_overflows depth); [discriminate|].
    eapply root_loop_keeps; [apply (minimaxHelper_keeps fuel (depth - 1)) |
                             | exact H].
    auto.
Qed.

Lemma findMinimaxMove_keeps fuel depth p m q :
  I p -> findMinimaxMove fuel depth p = Ok (m, q) -> I q.
Proof.
  intros Hp H. unfold findMinimaxMove in H.
  destruct (root_search fuel depth p) as [[r q']| |] eqn:E; cbn [bind] in H;
    try discriminate.
  inversion H; subst. eapply root_search_keeps; eauto.
Qed.

Lemma deepening_loop_keeps fuel clock start allowed n :
  forall tick depth m p m' q,
    I p ->
    deepening_loop fuel n clock tick start allowed depth m p = Ok (m', q) ->
    I q.
Proof.
  induction n as [|n IH]; intros tick depth m p m' q Hp H; [discriminate|].
  cbn [deepening_loop] in H.
  destruct (time_remains _ _ _).
  - destruct (testingMinimax p).
    + destruct (findMinimaxMove fuel 2 p) as [[m1 q1]| |] eqn:E;
        cbn [bind] in H; try discriminate.
      eapply IH; [|exact H]. eapply findMinimaxMove_keeps; eauto.
    + destruct (succ_overflows depth); [discriminate|].
      destruct (findMinimaxMove fuel depth p) as [[m1 q1]| |] eqn:E;
        cbn [bind] in H; try discriminate.
      eapply IH; [|exact H]. eapply findMinimaxMove_keeps; eauto.
  - inversion H; subst. exact Hp.
Qed.

Lemma opening_loop_keeps fuel :
  forall p positions q positions',
    I p -> opening_loop fuel p positions = Ok (q, positions') -> I q.
Proof.
  induction fuel as [|fuel IH]; intros p positions q positions' Hp H;
    cbn [opening_loop] in H;
    destruct (tbl_size (_table p) <? 25000);
    try discriminate; try (inversion H; subst; exact Hp).
  destruct positions as [|curr rest]; [discriminate|].
  pose proof (opening_body_eq p curr rest) as E. cbv zeta in E.
  rewrite E in H. eapply IH; [|exact H]. auto.
Qed.

(** The property does not depend on the board that the player holds. *)
Hypothesis I_board : forall p b, I p -> I (set_board b p).

Lemma doMove_keeps clock fuel opponentsMove msLeft p m q :
  I p -> doMove clock fuel opponentsMove msLeft p = Ok (m, q) -> I q.
Proof.
  intros Hp H. unfold doMove in H.
  fold (after_opponent opponentsMove p) in H.
  assert (Hp1 : I (after_opponent opponentsMove p))
    by (destruct opponentsMove; cbn; auto).
  destruct (0 <? msLeft).
  - destruct (deepening_loop _ _ _ _ _ _ _ _ _) as [[m1 q1]| |] eqn:E;
      cbn [bind] in H; try discriminate.
    inversion H; subst. apply I_board.
    eapply deepening_loop_keeps; eauto.
  - destruct (testingMinimax _).
    + destruct (findMinimaxMove _ _ _) as [[m1 q1]| |] eqn:E;
        cbn [bind] in H; try discriminate.
      inversion H; subst. apply I_board.
      eapply findMinimaxMove_keeps; eauto.
    + destruct (findMinimaxMove _ _ _) as [[m1 q1]| |] eqn:E;
        cbn [bind] in H; try discriminate.
      inversion H; subst. apply I_board.
      eapply findMinimaxMove_keeps; eauto.
Qed.

End Invariant.

Section SearchMore.

Context {BO : BoardOps} {TO : TableOps} {PA : Params}.

Lemma table_ok_evaluate p b : table_ok p -> table_ok (snd (evaluate p b)).
Proof.
  intros (C & V & S).
  split; [apply (evaluate_consistent p b C)|].
  split; [apply (evaluate_int_valued p b V)|].
  pose proof (evaluate_size p b) as [H1 H2]. lia.
Qed.

Lemma table_ok_alloc_boards p n : table_ok p -> table_ok (alloc_boards n p).
Proof. intros H. exact H. Qed.

Lemma table_ok_alloc_moves p n : table_ok p -> table_ok (alloc_moves n p).
Proof. intros H. exact H. Qed.

Lemma table_ok_set_board p b : table_ok p -> table_ok (set_board b p).
Proof. intros H. exact H. Qed.

Lemma same_setup_evaluate p0 p b :
  same_setup p0 p -> same_setup p0 (snd (evaluate p b)).
Proof.
  intros (A & B & C). destruct (evaluate_same_game p b) as (A' & B' & C' & _).
  repeat split; congruence.
Qed.

(** X10. [doMove] keeps the table in order, whatever the budget: when
    every entry of the table is an [int], is the score of its boards, and
    the table has at most 100000 entries, the same holds of the table when
    [doMove] returns; and [doMove] changes neither the sides nor the
    mode. *)
Theorem doMove_keeps_table (clock : nat -> Z) (fuel : nat)
    (opponentsMove : option Move) (msLeft : Z) (p : Player) :
  table_ok p ->
  match doMove clock fuel opponentsMove msLeft p with
  | Ok (m, q) => table_ok q /\ same_setup p q
  | _ => True
  end.
Proof.
  intros Hp.
  destruct (doMove clock fuel opponentsMove msLeft p) as [[m q]| |] eqn:E;
    auto.
  split.
  - exact (doMove_keeps table_ok table_ok_evaluate table_ok_alloc_boards
             table_ok_alloc_moves table_ok_set_board
             clock fuel opponentsMove msLeft p m q Hp E).
  - refine (doMove_keeps (same_setup p) (same_setup_evaluate p) _ _ _
              clock fuel opponentsMove msLeft p m q _ E);
      try (intros; assumption).
    repeat split.
Qed.

(** *** Live boards and moves *)

Lemma max_loop_heap rec b s beta :
  rec_heap rec ->
  forall moves alpha p r q,
    max_loop rec b s moves alpha beta p = Ok (r, q) ->
    live_boards p <= live_boards q /\
    live_moves p - Z.of_nat (List.length moves) <= live_moves q.
Proof.
  intros Hrec. induction moves as [|m rest IH]; intros alpha p r q H;
    cbn [max_loop] in H.
  - inversion H; subst. cbn. lia.
  - destruct (rec _ _ _ _ _) as [[r1 q1]| |] eqn:E; cbn [bind] in H;
      try discriminate.
    apply Hrec in E. cbn [live_boards live_moves alloc_boards] in E.
    destruct (beta <=? Z.max alpha r1).
    + inversion H; subst. cbn [List.length]. lia.
    + apply IH in H. cbn [live_boards live_moves alloc_boards alloc_moves] in H.
      cbn [List.length]. lia.
Qed.

Lemma min_loop_heap rec b s alpha :
  rec_heap rec ->
  forall moves beta p r q,
    min_loop rec b s moves alpha beta p = Ok (r, q) ->
    live_boards p <= live_boards q /\
    live_moves p - Z.of_nat (List.length moves) <= live_moves q.
Proof.
  intros Hrec. induction moves as [|m rest IH]; intros beta p r q H;
    cbn [min_loop] in H.
  - inversion H; subst. cbn. lia.
  - destruct (rec _ _ _ _ _) as [[r1 q1]| |] eqn:E; cbn [bind] in H;
      try discriminate.
    apply Hrec in E. cbn [live_boards live_moves alloc_boards] in E.
    destruct (Z.min beta r1 <=? alpha).
    + inversion H; subst. cbn [List.length]. lia.
    + apply IH in H. cbn [live_boards live_moves alloc_boards alloc_moves] in H.
      cbn [List.length]. lia.
Qed.

Lemma minimaxHelper_heap fuel :
  forall depth,
    rec_heap (fun b s a bt q => minimaxHelper fuel depth b s a bt q).
Proof.
  induction fuel as [|fuel IH]; intros depth b s alpha beta p r q H;
    [discriminate|].
  cbn [minimaxHelper] in H.
  destruct (depth =? 0).
  { inversion H; subst. change q with (snd (r, q)). rewrite <- H1.
    destruct (evaluate_heap p b). lia. }
  unfold possible_moves in H.
  destruct (getPossibleMoves b s) as [|m ms].
  { set (p' := alloc_moves _ p) in H. inversion H as [H1].
    pose proof (evaluate_heap p' b) as [E1 E2].
    rewrite H1 in E1, E2. cbn [snd] in E1, E2. subst p'.
    cbn in E1, E2. lia. }
  destruct (pred_overflows depth); [discriminate|].
  destruct (Side_eqb s _).
  - apply (max_loop_heap _ _ _ _ (IH (depth - 1))) in H.
    cbn [live_boards live_moves alloc_moves] in H. lia.
  - apply (min_loop_heap _ _ _ _ (IH (depth - 1))) in H.
    cbn [live_boards live_moves alloc_moves] in H. lia.
Qed.

(** X7. The helper never releases more than it allocates: when a call
    returns, the live boards and the live moves are at least what they
    were; and a call that ends in [evaluate], at depth 0 or without a
    move, leaves both as they were. *)
Theorem minimaxHelper_never_over_releases (fuel : nat) (depth : Z)
    (b : Board) (s : Side) (alpha beta : Z) (p : Player) :
  match minimaxHelper fuel depth b s alpha beta p with
  | Ok (r, q) =>
      live_boards p <= live_boards q /\ live_moves p <= live_moves q /\
      (depth = 0 \/ getPossibleMoves b s = [] ->
       live_boards q = live_boards p /\ live_moves q = live_moves p)
  | _ => True
  end.
Proof.
  destruct (minimaxHelper fuel depth b s alpha beta p) as [[r q]| |] eqn:E;
    auto.
  pose proof (minimaxHelper_heap fuel depth _ _ _ _ _ _ _ E) as [H1 H2].
  split; [exact H1|]. split; [exact H2|].
  intros Hleaf. destruct fuel as [|fuel]; [discriminate|].
  cbn [minimaxHelper] in E.
  destruct (depth =? 0) eqn:D.
  { inversion E; subst. change q with (snd (r, q)). rewrite <- H0.
    apply evaluate_heap. }
  apply Z.eqb_neq in D. destruct Hleaf as [Hd|Hm]; [contradiction|].
  unfold possible_moves in E. rewrite Hm in E.
  set (p' := alloc_moves _ p) in E. inversion E as [H0].
  pose proof (evaluate_heap p' b) as [E1 E2].
  rewrite H0 in E1, E2. cbn [snd] in E1, E2. subst p'.
  cbn in E1, E2. split; lia.
Qed.

(** X6. The window of the helper.  On a player with a consistent table
    and for a position of full minimax value [v]: a call for the agent
    returns [v] if [v] is below [beta], and else a value from [beta] up to
    [v]; a call for the opponent returns [v] if [v] is above [alpha], and
    else a value from [v] up to [alpha].  The [alpha] of a call for the
    agent and the [beta] of a call for the opponent have no effect. *)
Theorem minimaxHelper_window (fuel : nat) (depth : Z) (b : Board) (s : Side)
    (alpha beta v : Z) (p : Player) :
  sides_ok p -> table_consistent p ->
  full_minimax (_side p) (_opponentSide p) (static_value p) fuel depth b s
  = Ok v ->
  exists r q,
    minimaxHelper fuel depth b s alpha beta p = Ok (r, q) /\
    table_consistent q /\
    if Side_eqb s (_side p)
    then (v < beta -> r = v) /\ (beta <= v -> beta <= r <= v)
    else (alpha < v -> r = v) /\ (v <= alpha -> v <= r <= alpha).
Proof.
  intros Hs Hc Hv.
  destruct (minimaxHelper_refines p Hs fuel depth b s alpha beta p v
              (conj (same_game_refl p) Hc) Hv) as (r & q & E & [_ Hq] & Hb).
  exists r, q. split; [exact E|]. split; [exact Hq | exact Hb].
Qed.

End SearchMore.

(** ** [doMove] *)

Section DoMoveMore.

Context {BO : BoardOps} {TO : TableOps} {PA : Params}.

(** [findMinimaxMove] returns a legal move, or [NULL] without one. *)
Lemma findMinimaxMove_legal fuel depth p :
  1 <= depth <= Z.of_nat fuel -> table_int_valued p ->
  exists m q,
    findMinimaxMove fuel depth p = Ok (m, q) /\ same_game p q /\
    table_int_valued q /\ legal_choice (_board p) (_side p) m.
Proof.
  intros Hd Hp.
  destruct (root_search_runs fuel depth p Hd Hp)
    as (r & q & E & G & V & _ & Hnil & Hsel).
  cbv zeta in *.
  exists (option_map snd (root_best r)), q.
  split; [unfold findMinimaxMove; now rewrite E|].
  split; [exact G|]. split; [exact V|].
  destruct (getPossibleMoves (_board p) (_side p)) as [|m ms] eqn:M.
  - rewrite Hnil by reflexivity. cbn. exact M.
  - destruct Hsel as (j & x & Hb & Hn & _); [discriminate|].
    rewrite Hb. cbn. rewrite M. eapply nth_error_In; eauto.
Qed.

Lemma legal_choice_same_game p q m :
  same_game p q -> legal_choice (_board p) (_side p) m ->
  legal_choice (_board q) (_side q) m.
Proof. intros (_ & S & _ & B). now rewrite S, B. Qed.

(** X8. Without a time limit ([msLeft <= 0]) [doMove] returns a legal move
    of the agent on the board after the move of the opponent, or [NULL]
    when there is none; and the board that the player holds afterwards is
    that board with the returned move played on it. *)
Theorem doMove_untimed_legal (clock : nat -> Z) (fuel : nat)
    (opponentsMove : option Move) (msLeft : Z) (p : Player) :
  msLeft <= 0 ->
  1 <= MINIMAXDEPTH <= Z.of_nat fuel -> (2 <= fuel)%nat ->
  table_int_valued p ->
  exists m q,
    doMove clock fuel opponentsMove msLeft p = Ok (m, q) /\
    legal_choice (_board (after_opponent opponentsMove p)) (_side p) m /\
    _board q =
    Board_doMove (_board (after_opponent opponentsMove p)) m (_side p).
Proof.
  intros Hms Hdepth Hfuel Hp. unfold doMove.
  fold (after_opponent opponentsMove p).
  set (p1 := after_opponent opponentsMove p).
  assert (Hp1 : table_int_valued p1)
    by (subst p1; destruct opponentsMove; exact Hp).
  assert (Hs : _side p1 = _side p) by (subst p1; now destruct opponentsMove).
  assert (L : (0 <? msLeft) = false) by (apply Z.ltb_ge; lia).
  rewrite L.
  assert (Hrun : exists m q,
             (if testingMinimax p1 then findMinimaxMove fuel 2 p1
              else findMinimaxMove fuel MINIMAXDEPTH p1) = Ok (m, q) /\
             same_game p1 q /\ legal_choice (_board p1) (_side p1) m).
  { destruct (testingMinimax p1).
    - destruct (findMinimaxMove_legal fuel 2 p1 ltac:(lia) Hp1)
        as (m & q & E & G & _ & Hm). eauto.
    - destruct (findMinimaxMove_legal fuel MINIMAXDEPTH p1 Hdepth Hp1)
        as (m & q & E & G & _ & Hm). eauto. }
  destruct Hrun as (m & q & E & (_ & S & _ & B) & Hm). rewrite E. cbn [bind].
  eexists; eexists. split; [reflexivity|].
  split; [now rewrite <- Hs|]. cbn. now rewrite B, S, Hs.
Qed.

(** The deepening loop after [i] searches, for a clock whose next [r]
    readings leave time and whose reading after these does not: the loop
    makes [r] more searches, and returns what [i + r] searches give. *)
Lemma deepening_loop_searches fuel clock start allowed p1 :
  (2 <= fuel)%nat ->
  forall r i n depth m0 q0,
    searches fuel p1 i = Ok (m0, q0) ->
    same_game p1 q0 -> table_int_valued q0 ->
    ((0 < i)%nat -> legal_choice (_board p1) (_side p1) m0) ->
    (forall j, (j < r)%nat ->
               time_remains (clock (1 + i + j)%nat) start allowed = true) ->
    time_remains (clock (1 + i + r)%nat) start allowed = false ->
    (r < n)%nat ->
    (testingMinimax p1 = false ->
     depth = MINIMAXDEPTH + Z.of_nat i /\ 1 <= MINIMAXDEPTH /\
     MINIMAXDEPTH + Z.of_nat (i + r) - 1 <= Z.of_nat fuel /\
     MINIMAXDEPTH + Z.of_nat (i + r) <= INT_MAX) ->
    exists m q,
      deepening_loop fuel n clock (1 + i) start allowed depth m0 q0
      = Ok (m, q) /\
      searches fuel p1 (i + r) = Ok (m, q) /\
      same_game p1 q /\
      ((0 < i + r)%nat -> legal_choice (_board p1) (_side p1) m).
Proof.
  intros Hf.
  induction r as [|r IH];
    intros i n depth m0 q0 Hi G V Hl Hpass Hstop Hn Hd;
    (destruct n as [|n]; [lia|]); cbn [deepening_loop].
  - rewrite Nat.add_0_r in Hstop. rewrite Hstop.
    exists m0, q0. rewrite Nat.add_0_r.
    split; [reflexivity|]. split; [exact Hi|]. split; [exact G | exact Hl].
  - pose proof (Hpass 0%nat ltac:(lia)) as Hnow.
    rewrite Nat.add_0_r in Hnow. rewrite Hnow.
    assert (Hpass' : forall j, (j < r)%nat ->
               time_remains (clock (1 + S i + j)%nat) start allowed = true).
    { intros j Hj. replace (1 + S i + j)%nat with (1 + i + S j)%nat by lia.
      apply Hpass. lia. }
    assert (Hstop' : time_remains (clock (1 + S i + r)%nat) start allowed
                     = false).
    { replace (1 + S i + r)%nat with (1 + i + S r)%nat by lia. exact Hstop. }
    pose proof G as (T0 & S0 & _ & B0).
    assert (Hround : forall d m1 q1,
               (if testingMinimax p1 then 2 else depth) = d ->
               findMinimaxMove fuel d q0 = Ok (m1, q1) ->
               searches fuel p1 (S i) = Ok (m1, q1)).
    { intros d m1 q1 Hdd E. cbn [searches]. rewrite Hi. cbn [bind].
      unfold round_depth. rewrite <- Hdd in E.
      destruct (testingMinimax p1); [exact E|].
      destruct (Hd eq_refl) as (-> & _). exact E. }
    replace (i + S r)%nat with (S i + r)%nat by lia.
    rewrite T0.
    destruct (testingMinimax p1) eqn:T.
    + assert (Hb : 1 <= 2 <= Z.of_nat fuel) by lia.
      destruct (findMinimaxMove_legal fuel 2 q0 Hb V)
        as (m1 & q1 & E & G1 & V1 & Hm). rewrite E. cbn [bind].
      rewrite S0, B0 in Hm.
      assert (Hn' : (r < n)%nat) by lia.
      apply (IH (S i) n depth m1 q1 (Hround 2 m1 q1 eq_refl E)
                (same_game_trans _ _ _ G G1) V1 (fun _ => Hm)
                Hpass' Hstop' Hn').
      discriminate.
    + destruct (Hd eq_refl) as (-> & D1 & D2 & D3).
      assert (O : succ_overflows (MINIMAXDEPTH + Z.of_nat i) = false).
      { unfold succ_overflows. apply Z.leb_gt. lia. }
      rewrite O.
      assert (Hb : 1 <= MINIMAXDEPTH + Z.of_nat i <= Z.of_nat fuel) by lia.
      destruct (findMinimaxMove_legal fuel (MINIMAXDEPTH + Z.of_nat i) q0 Hb V)
        as (m1 & q1 & E & G1 & V1 & Hm). rewrite E. cbn [bind].
      rewrite S0, B0 in Hm.
      assert (Hn' : (r < n)%nat) by lia.
      apply (IH (S i) n (MINIMAXDEPTH + Z.of_nat i + 1) m1 q1
                (Hround _ m1 q1 eq_refl E)
                (same_game_trans _ _ _ G G1) V1 (fun _ => Hm)
                Hpass' Hstop' Hn').
      intros _. split; [lia|]. split; [exact D1|].
      replace (S i + r)%nat with (i + S r)%nat by lia. split; assumption.
Qed.

(** X9. Iterative deepening.  With a budget [msLeft > 0] and a clock whose
    readings at the head of the loop leave time [k] times and then do not,
    [doMove] makes [k] searches one after the other, of depths
    [MINIMAXDEPTH], [MINIMAXDEPTH + 1], ... (depth 2 each in testing mode),
    each on the table that the search before it left, and returns the
    move of the last of them: a legal move of the agent, or [NULL] without
    one.  The test is made between the searches only; with [k = 0] it
    returns [NULL].  The player afterwards is the player after the [k]
    searches, with the returned move played on the board. *)
Theorem doMove_iterative_deepening (clock : nat -> Z) (fuel : nat)
    (opponentsMove : option Move) (msLeft : Z) (p : Player) (k : nat) :
  0 < msLeft ->
  (forall i, (i < k)%nat ->
             time_remains (clock (1 + i)%nat) (clock 0%nat) (msLeft ÷ 500)
             = true) ->
  time_remains (clock (1 + k)%nat) (clock 0%nat) (msLeft ÷ 500) = false ->
  1 <= MINIMAXDEPTH -> MINIMAXDEPTH + Z.of_nat k <= Z.of_nat fuel ->
  (2 <= fuel)%nat -> Z.of_nat fuel <= INT_MAX ->
  table_int_valued p ->
  exists m q1,
    searches fuel (after_opponent opponentsMove p) k = Ok (m, q1) /\
    doMove clock fuel opponentsMove msLeft p
    = Ok (m, set_board
               (Board_doMove (_board (after_opponent opponentsMove p)) m
                             (_side p)) q1) /\
    (k = 0%nat -> m = None) /\
    ((0 < k)%nat ->
     legal_choice (_board (after_opponent opponentsMove p)) (_side p) m).
Proof.
  intros Hms Hpass Hstop Hd Hfuel Hf2 Hmax Hp. unfold doMove.
  fold (after_opponent opponentsMove p).
  set (p1 := after_opponent opponentsMove p).
  assert (Hp1 : table_int_valued p1)
    by (subst p1; destruct opponentsMove; exact Hp).
  assert (Hs : _side p1 = _side p) by (subst p1; now destruct opponentsMove).
  assert (L : (0 <? msLeft) = true) by (apply Z.ltb_lt; lia).
  rewrite L.
  destruct (deepening_loop_searches fuel clock (clock 0%nat) (msLeft ÷ 500)
              p1 Hf2 k 0%nat fuel MINIMAXDEPTH None p1 eq_refl
              (same_game_refl p1) Hp1 ltac:(lia) Hpass Hstop ltac:(lia))
    as (m & q & E & Hk & (_ & S & _ & B) & Hl).
  { intros _. cbn [Nat.add Z.of_nat]. lia. }
  cbn [Nat.add] in E, Hk, Hl.
  rewrite E. cbn [bind]. exists m, q. split; [exact Hk|].
  split; [now rewrite B, S, Hs|].
  split.
  - intros ->. cbn in Hk. now inversion Hk.
  - intros K. rewrite <- Hs. exact (Hl K).
Qed.

(** X12. In material-only testing mode a whole call of [doMove] does
    nothing to the table: the table is the same afterwards and the log
    shows no operation on it. *)
Theorem doMove_testing_leaves_table (clock : nat -> Z) (fuel : nat)
    (opponentsMove : option Move) (msLeft : Z) (p : Player) :
  testingMinimax p = true ->
  match doMove clock fuel opponentsMove msLeft p with
  | Ok (m, q) => _table q = _table p /\ table_log q = table_log p
  | _ => True
  end.
Proof.
  intros T.
  destruct (doMove clock fuel opponentsMove msLeft p) as [[m q]| |] eqn:E;
    auto.
  refine (proj2 (doMove_keeps
            (fun q => testingMinimax q = true /\
                      (_table q = _table p /\ table_log q = table_log p))
            _ _ _ _ clock fuel opponentsMove msLeft p m q _ E)).
  - intros p1 b (T1 & H). rewrite (evaluate_testing p1 b T1). auto.
  - intros p1 n H. exact H.
  - intros p1 n H. exact H.
  - intros p1 b H. exact H.
  - auto.
Qed.

End DoMoveMore.

(** ** [computeOpening] *)

Section OpeningMore.

Context {BO : BoardOps} {TO : TableOps} {PA : Params}.

Lemma opening_loop_more_fuel k :
  forall m p positions r,
    opening_loop k p positions = Ok r -> (k <= m)%nat ->
    opening_loop m p positions = Ok r.
Proof.
  induction k as [|k IH]; intros m p positions r H Hm;
    destruct m as [|m]; try lia; cbn [opening_loop] in *;
    destruct (tbl_size (_table p) <? 25000); try discriminate; auto.
  destruct positions as [|c rs]; [discriminate|].
  destruct (opening_body p c rs) as [p2 pos2].
  apply IH; [exact H | lia].
Qed.

(** The copies of boards that are live during the first loop are the
    boards of the queue; no move is released. *)
Lemma opening_loop_heap fuel :
  forall p positions q positions',
    opening_loop fuel p positions = Ok (q, positions') ->
    live_boards q - Z.of_nat (List.length positions')
    = live_boards p - Z.of_nat (List.length positions) /\
    live_moves p <= live_moves q /\ same_game p q.
Proof.
  induction fuel as [|fuel IH]; intros p positions q positions' H;
    cbn [opening_loop] in H;
    destruct (tbl_size (_table p) <? 25000);
    try discriminate;
    try (inversion H; subst; split; [reflexivity|];
         split; [lia | apply same_game_refl]).
  destruct positions as [|curr rest]; [discriminate|].
  pose proof (opening_body_eq p curr rest) as E. cbv zeta in E.
  rewrite E in H. apply IH in H. destruct H as (Hb & Hm & G).
  destruct (evaluate_heap p (snd curr)) as [E1 E2].
  cbn [live_boards live_moves alloc_boards alloc_moves] in Hb, Hm.
  rewrite E1 in Hb. rewrite E2 in Hm.
  unfold opening_children in Hb. rewrite length_app, length_map in Hb.
  cbn [List.length].
  split; [lia|]. split; [lia|].
  eapply same_game_trans; [|exact G].
  destruct (evaluate_same_game p (snd curr)) as (A & B & C & D).
  repeat split; assumption.
Qed.

(** The keys of the table after a call of [evaluate] are keys of the
    table before it, or the key of the board. *)
Lemma evaluate_keys_back p b k :
  In k (table_keys (snd (evaluate p b))) ->
  In k (table_keys p) \/ k = board_hash p b.
Proof.
  intros H. apply table_keys_find in H. destruct H as [v H].
  destruct (evaluate_cases p b) as [[T E]|[(w & T & F & E)|(T & F & E)]];
    rewrite E in H; cbn [snd _table log_op set_table] in H.
  - left. apply table_keys_find. eauto.
  - left. apply table_keys_find. eauto.
  - rewrite tbl_find_assign_iff in H by (now apply before_store_find_None).
    destruct H as [[-> _]|H]; [now right | left].
    apply before_store_find_Some in H. apply table_keys_find. eauto.
Qed.

(** A round of the first loop moves the key of its board from the boards
    to come into the table. *)
Lemma keys_with_round p curr rest bs :
  testingMinimax p = false -> tbl_size (_table p) < 100000 ->
  keys_with (fst (opening_body p curr rest)) bs
  = keys_with p (snd curr :: bs).
Proof.
  intros T L. pose proof (opening_body_eq p curr rest) as E. cbv zeta in E.
  rewrite E. cbn [fst].
  set (p' := alloc_boards (-1) _).
  assert (G : same_game p p').
  { destruct (evaluate_same_game p (snd curr)) as (A & B & C & D).
    repeat split; assumption. }
  assert (K : table_keys p' = table_keys (snd (evaluate p (snd curr))))
    by reflexivity.
  assert (M : map (board_hash p') bs = map (board_hash p) bs).
  { apply map_ext. intros b. now apply board_hash_same_game. }
  unfold keys_with. rewrite K, M. f_equal.
  apply Nat.le_antisymm; apply nodup_length_incl; intros k Hk;
    apply in_app_iff in Hk; apply in_app_iff.
  - destruct Hk as [Hk|Hk]; [|right; now right].
    apply evaluate_keys_back in Hk.
    destruct Hk as [Hk| ->]; [now left | right; now left].
  - destruct Hk as [Hk|[Hk|Hk]]; [| |now right]; left.
    + apply (evaluate_keys p (snd curr) k T L). now left.
    + apply (evaluate_keys p (snd curr) k T L). now right.
Qed.

(** The rounds of the first loop.  When the loop returns it has made [r]
    rounds, where [r] is the first number of boards of the breadth-first
    order that bring the keys to 25000; and the live moves have grown by
    the moves that [getPossibleMoves] returned in these rounds. *)
Lemma opening_loop_rounds fuel :
  forall p positions q positions',
    testingMinimax p = false -> tbl_size (_table p) <= 25000 ->
    opening_loop fuel p positions = Ok (q, positions') ->
    exists r,
      (r <= fuel)%nat /\
      live_moves q = live_moves p + bfs_moves r positions /\
      keys_with p (bfs_boards r positions) = 25000 /\
      forall r', (r' < r)%nat -> keys_with p (bfs_boards r' positions) < 25000.
Proof.
  assert (Hnow : forall p, keys_with p [] = tbl_size (_table p)).
  { intros p. unfold keys_with. cbn [map]. rewrite app_nil_r.
    rewrite nodup_fixed_point by apply tbl_keys_NoDup.
    apply table_keys_length. }
  induction fuel as [|fuel IH]; intros p positions q positions' T Hp H;
    cbn [opening_loop] in H;
    destruct (tbl_size (_table p) <? 25000) eqn:L; try discriminate.
  - apply Z.ltb_ge in L. inversion H; subst. exists 0%nat.
    split; [lia|]. split; [cbn; lia|]. split; [cbn; rewrite Hnow; lia | lia].
  - apply Z.ltb_lt in L.
    destruct positions as [|curr rest]; [discriminate|].
    pose proof (keys_with_round p curr rest) as Hk.
    pose proof (opening_body_eq p curr rest) as E. cbv zeta in E.
    rewrite E in H, Hk. cbn [fst] in Hk.
    set (p' := alloc_boards (-1) _) in H, Hk.
    assert (T' : testingMinimax p' = false).
    { destruct (evaluate_same_game p (snd curr)) as (A & _).
      subst p'. cbn [testingMinimax alloc_boards alloc_moves]. congruence. }
    assert (S' : tbl_size (_table p') <= 25000).
    { subst p'. cbn [_table alloc_boards alloc_moves].
      pose proof (evaluate_size p (snd curr)) as [H1 _]. lia. }
    assert (M' : live_moves p' = live_moves p
                 + Z.of_nat (List.length
                               (getPossibleMoves (snd curr) (fst curr)))).
    { subst p'. cbn [live_moves alloc_boards alloc_moves].
      destruct (evaluate_heap p (snd curr)) as [_ E2]. rewrite E2. lia. }
    destruct (IH p' _ q positions' T' S' H) as (r & Hr & Hm & Hc & Hlt).
    exists (S r). split; [lia|]. split; [|split].
    + cbn [bfs_moves]. lia.
    + rewrite bfs_boards_cons, <- Hk by (auto; lia). exact Hc.
    + intros [|r'] Hr'.
      * cbn [bfs_boards]. rewrite Hnow. exact L.
      * rewrite bfs_boards_cons, <- Hk by (auto; lia). apply Hlt. lia.
  - apply Z.ltb_ge in L. inversion H; subst. exists 0%nat.
    split; [lia|]. split; [cbn; lia|]. split; [cbn; rewrite Hnow; lia | lia].
Qed.

(** X11. [computeOpening] on a player with the table in use and empty, for
    a game whose breadth-first order gives 25000 distinct keys: it returns;
    the table that it leaves is consistent with the evaluator and holds
    [int]s; every copy of a board that it made is released; the board, the
    sides and the mode of the player are as before.  The loop takes [r]
    boards from the queue, the first number of boards of the breadth-first
    order with 25000 distinct keys, and the live moves have grown by
    exactly the number of moves that [getPossibleMoves] returned for these
    boards: none of them is released. *)
Theorem computeOpening_returns (p : Player) (n fuel : nat) :
  testingMinimax p = false ->
  tbl_entries (_table p) = [] ->
  25000 <= distinct_hashes p (bfs_boards n (snd (opening_start p))) ->
  (n <= fuel)%nat ->
  exists q r,
    computeOpening fuel p = Ok q /\ same_game p q /\
    table_consistent q /\ table_int_valued q /\
    live_boards q = live_boards p /\
    (r <= n)%nat /\
    distinct_hashes p (bfs_boards r (snd (opening_start p))) = 25000 /\
    (forall r', (r' < r)%nat ->
                distinct_hashes p (bfs_boards r' (snd (opening_start p)))
                < 25000) /\
    live_moves q = live_moves p + bfs_moves r (snd (opening_start p)).
Proof.
  intros T Hempty Hd Hn.
  assert (Hs : tbl_size (_table (fst (opening_start p))) <= 25000).
  { cbn. rewrite tbl_size_spec, Hempty. cbn. lia. }
  assert (Hkeys : forall bs,
             keys_with (fst (opening_start p)) bs = distinct_hashes p bs).
  { intros bs. unfold keys_with, distinct_hashes, table_keys.
    cbn [opening_start fst _table alloc_boards]. rewrite Hempty. reflexivity. }
  destruct (opening_loop_halts n (fst (opening_start p))
              (snd (opening_start p)) T Hs) as (q & pos' & Hrun).
  { unfold table_keys. cbn [opening_start fst snd _table alloc_boards].
    rewrite Hempty. exact Hd. }
  destruct (opening_loop_rounds n (fst (opening_start p))
              (snd (opening_start p)) q pos' T Hs Hrun)
    as (r & Hr & Hmoves & Hc & Hlt).
  rewrite Hkeys in Hc.
  apply (opening_loop_more_fuel n fuel) in Hrun; [|exact Hn].
  exists (alloc_boards (- Z.of_nat (List.length pos')) q), r.
  split.
  { unfold computeOpening, opening_start in *. cbn [fst snd] in Hrun.
    cbv beta iota. now rewrite Hrun. }
  cbn [opening_start fst snd] in Hrun.
  pose proof (opening_loop_heap _ _ _ _ _ Hrun) as (Hb & Hm & G).
  assert (C : table_consistent q).
  { refine (opening_loop_keeps table_consistent _ _ _ fuel _ _ _ _ _ Hrun).
    - intros p1 b H. apply (evaluate_consistent p1 b H).
    - intros p1 k H. exact H.
    - intros p1 k H. exact H.
    - apply (empty_table_consistent p Hempty). }
  assert (V : table_int_valued q).
  { refine (opening_loop_keeps table_int_valued _ _ _ fuel _ _ _ _ _ Hrun).
    - intros p1 b H. apply (evaluate_int_valued p1 b H).
    - intros p1 k H. exact H.
    - intros p1 k H. exact H.
    - apply (empty_table_int_valued p Hempty). }
  split; [|split; [exact C|split; [exact V|]]].
  { destruct G as (A & B & D & E). repeat split; assumption. }
  split.
  { cbn [live_boards live_moves alloc_boards alloc_moves List.length] in *.
    lia. }
  split; [exact Hr|]. split; [exact Hc|]. split.
  - intros r' Hr'. rewrite <- Hkeys. apply Hlt. exact Hr'.
  - cbn [live_moves alloc_boards opening_start fst snd] in Hmoves |- *.
    exact Hmoves.
Qed.

End OpeningMore.

(** * Concrete positions *)

Section Examples.

#[local] Existing Instance sample_ops.
#[local] Existing Instance StdMap_table.
#[local] Existing Instance sample_params.

Lemma C1_witness :
  sides_ok (black_player two_moves) /\
  table_consistent (black_player two_moves) /\
  exists v r q,
    full_minimax_root (black_player two_moves) 3 3 = Ok v /\
    root_search 3 3 (black_player two_moves) = Ok (r, q) /\
    root_best_score r = v.
Proof.
  assert (S : sides_ok (black_player two_moves)) by reflexivity.
  assert (C : table_consistent (black_player two_moves))
    by (apply empty_table_consistent; reflexivity).
  split; [exact S|]. split; [exact C|].
  destruct (C1_alpha_beta_is_minimax (black_player two_moves) S 3 3 C)
    as [Hsame Hruns].
  destruct (Hruns ltac:(cbn; lia)) as [v Hv].
  destruct (Hsame v Hv) as (r & q & Hr & Hb).
  exists v, r, q. auto.
Defined.

Lemma C5_witness :
  1 <= 2 <= Z.of_nat 2 /\ table_int_valued (black_tester tied_moves) /\
  exists r q,
    root_search 2 2 (black_tester tied_moves) = Ok (r, q) /\
    findMinimaxMove 2 2 (black_tester tied_moves)
    = Ok (option_map snd (root_best r), q) /\
    helper_scores
      (fun nb s a bt x => minimaxHelper 2 (2 - 1) nb s a bt x)
      (getPossibleMoves tied_moves BLACK) INT_MIN (black_tester tied_moves)
    = Ok (root_scores r).
Proof.
  assert (D : 1 <= 2 <= Z.of_nat 2) by (cbn; lia).
  assert (V : table_int_valued (black_tester tied_moves))
    by (apply empty_table_int_valued; reflexivity).
  split; [exact D|]. split; [exact V|].
  destruct (C5_ties_favor_later 2 2 (black_tester tied_moves) D V)
    as (r & q & Hr & Hf & Hs & _).
  exists r, q. split; [exact Hr|]. split; [exact Hf | exact Hs].
Defined.

Lemma C6_witness :
  -1 <= 0 /\ table_int_valued (black_player two_moves) /\
  exists m q,
    doMove ticking 3 None (-1) (black_player two_moves) = Ok (m, q) /\
    (m = None <-> getPossibleMoves two_moves BLACK = []).
Proof.
  assert (V : table_int_valued (black_player two_moves))
    by (apply empty_table_int_valued; reflexivity).
  assert (B : -1 <= 0) by lia.
  assert (D : 1 <= MINIMAXDEPTH <= Z.of_nat 3) by (cbn; lia).
  assert (F : (2 <= 3)%nat) by lia.
  split; [exact B|]. split; [exact V|].
  exact (C6_no_move_iff_none_legal ticking 3 None (-1) (black_player two_moves)
                                   B D F V).
Defined.

Lemma C7_witness :
  tbl_size (_table (black_player two_moves)) <= 100000 /\
  tbl_size (_table (evaluate_all (black_player two_moves)
                                 (firstn 2 [reply_A; reply_B; two_moves])))
  <= 100000.
Proof.
  assert (H : tbl_size (_table (black_player two_moves)) <= 100000)
    by (cbn; lia).
  split; [exact H|].
  exact (C7_table_bound (black_player two_moves) [reply_A; reply_B; two_moves]
                        2 H).
Defined.

Lemma C8_witness :
  testingMinimax (black_tester reply_A) = true /\
  evaluate (black_tester reply_A) reply_A = (4, black_tester reply_A).
Proof.
  split; [reflexivity|].
  exact (C8_material_only (black_tester reply_A) reply_A eq_refl).
Defined.

Lemma C9_witness :
  fst (evaluate (snd (evaluate (black_player two_moves) reply_A)) reply_A)
  = fst (evaluate (black_player two_moves) reply_A) /\
  tbl_find (_table (snd (evaluate (black_player two_moves) reply_A)))
           (board_hash (black_player two_moves) reply_A)
  = Some (fst (evaluate (black_player two_moves) reply_A)).
Proof.
  destruct (C9_evaluate_twice (black_player two_moves) reply_A) as [H1 H2].
  split; [exact H1|]. exact (proj1 (H2 eq_refl)).
Defined.

Lemma C10_witness :
  0 < 499 < 500 /\ ticking 0 <= ticking 1 /\
  getPossibleMoves two_moves BLACK <> [] /\
  exists q, doMove ticking 1 None 499 (black_player two_moves) = Ok (None, q).
Proof.
  assert (B : 0 < 499 < 500) by lia.
  assert (T : ticking 0 <= ticking 1) by (cbn; lia).
  assert (F : (0 < 1)%nat) by lia.
  split; [exact B|]. split; [exact T|]. split; [discriminate|].
  eexists.
  exact (proj2 (C10_small_budget_returns_null ticking 1 None 499
                  (black_player two_moves) B T F)).
Defined.

(** *** What the search does on the sample positions *)

(** C4, on the code as it is: the break of the pruning comes before the
    two [delete]s of the loop.  In testing mode and at depth 2 on
    [two_moves], the player holds one live board and no live move before
    the search.  The helper for the first move, which runs its loop to the
    end, releases all that it allocated.  The helper for the second move
    is called with [alpha = 5]; the first reply scores 3, the loop breaks,
    and the copy of the board and the two moves of the vector stay
    allocated.  After [findMinimaxMove] one board and two moves are live
    beyond the move that is returned. *)
Theorem C4_pruning_break_leaks :
  (live_boards (black_tester two_moves), live_moves (black_tester two_moves))
  = (1, 0) /\
  helper_outcome (minimaxHelper 2 1 reply_A WHITE INT_MIN INT_MAX
                                (black_tester two_moves))
  = Some (5, 1, 0) /\
  helper_outcome (minimaxHelper 2 1 reply_B WHITE 5 INT_MAX
                                (black_tester two_moves))
  = Some (3, 1 + 1, 0 + 2) /\
  root_outcome (root_search 2 2 (black_tester two_moves))
  = Some (5, Some 0%nat, [5; 3], 1 + 1, 1 + 2).
Proof.
  split; [|split; [|split]]; vm_compute; reflexivity.
Qed.

(** On [tied_moves] the second move is worth 2 to full minimax, but its
    helper stops at the first reply and returns 5, which ties with the
    first move: the second move is returned. *)
Example tied_moves_choice :
  root_outcome (root_search 2 2 (black_tester tied_moves))
  = Some (5, Some 1%nat, [5; 5], 1 + 1, 2 + 2) /\
  helper_scores (fun nb s a bt x => minimaxHelper 2 1 nb s a bt x)
                (getPossibleMoves tied_moves BLACK) INT_MIN
                (black_tester tied_moves) = Ok [5; 5] /\
  full_minimax BLACK WHITE (static_value (black_tester tied_moves)) 2 1
               reply_T WHITE = Ok 2.
Proof.
  split; [|split]; vm_compute; reflexivity.
Qed.

(** With the table in use, the same search fills the table. *)
Example two_moves_with_table :
  match root_search 3 3 (black_player two_moves) with
  | Ok (r, q) =>
      Some (root_alpha r, option_map fst (root_best r), tbl_size (_table q))
  | _ => None
  end = Some (5, Some 0%nat, 3).
Proof. vm_compute. reflexivity. Qed.

(** *** A table at its bound *)

Lemma is_none_eq {A} (o : option A) : is_none o = true -> o = None.
Proof. destruct o; [discriminate | reflexivity]. Qed.

Lemma is_key_eq o k : is_key o k = true -> o = Some k.
Proof.
  destruct o as [k'|]; cbn; [|discriminate].
  intros H. apply String.eqb_eq in H. now subst.
Qed.

Lemma is_score_eq o v : is_score o v = true -> o = Some v.
Proof.
  destruct o as [v'|]; cbn; [|discriminate].
  intros H. apply Z.eqb_eq in H. now subst.
Qed.

(** [full_player] runs with the table, which holds 100000 entries and not
    the key of [next_board].  The key of the first board that was stored is
    the oldest; the key of the last is at [begin()].  The call of
    [evaluate] on [next_board] erases the key of the last board; the key of
    the first is still there after it. *)
Lemma full_player_checked :
  negb (testingMinimax full_player)
  && (tbl_size (_table full_player) =? 100000)
  && is_none (tbl_find (_table full_player) (board_hash full_player next_board))
  && is_key (oldest_key (table_log full_player)) "199999, 199999"
  && is_key (tbl_begin_key (_table full_player)) "100000, 100000"
  && is_key (evicted_key (table_log (snd (evaluate full_player next_board))))
            "100000, 100000"
  && is_score (tbl_find (_table (snd (evaluate full_player next_board)))
                        "199999, 199999") 71
  = true.
Proof. vm_compute. reflexivity. Qed.

Lemma full_player_facts :
  testingMinimax full_player = false /\
  tbl_size (_table full_player) = 100000 /\
  tbl_find (_table full_player) (board_hash full_player next_board) = None /\
  oldest_key (table_log full_player) = Some "199999, 199999"%string /\
  tbl_begin_key (_table full_player) = Some "100000, 100000"%string /\
  evicted_key (table_log (snd (evaluate full_player next_board)))
  = Some "100000, 100000"%string /\
  tbl_find (_table (snd (evaluate full_player next_board))) "199999, 199999"
  = Some 71.
Proof.
  pose proof full_player_checked as H.
  apply andb_true_iff in H. destruct H as [H H7].
  apply andb_true_iff in H. destruct H as [H H6].
  apply andb_true_iff in H. destruct H as [H H5].
  apply andb_true_iff in H. destruct H as [H H4].
  apply andb_true_iff in H. destruct H as [H H3].
  apply andb_true_iff in H. destruct H as [H1 H2].
  apply negb_true_iff in H1. apply Z.eqb_eq in H2.
  apply is_none_eq in H3. apply is_key_eq in H4. apply is_key_eq in H5.
  apply is_key_eq in H6. apply is_score_eq in H7.
  split; [exact H1|]. split; [exact H2|]. split; [exact H3|].
  split; [exact H4|]. split; [exact H5|]. split; [exact H6 | exact H7].
Qed.

Lemma C2_counterexample :
  testingMinimax full_player = false /\
  tbl_size (_table full_player) = 100000 /\
  tbl_find (_table full_player) (board_hash full_player next_board) = None /\
  oldest_key (table_log full_player) = Some "199999, 199999"%string /\
  evicted_key (table_log (snd (evaluate full_player next_board)))
  = Some "100000, 100000"%string /\
  tbl_find (_table (snd (evaluate full_player next_board))) "199999, 199999"
  = Some 71 /\
  ~ evicts_oldest full_player next_board.
Proof.
  destruct full_player_facts as (H1 & H2 & H3 & H4 & H5 & H6 & H7).
  split; [exact H1|]. split; [exact H2|]. split; [exact H3|].
  split; [exact H4|]. split; [exact H6|]. split; [exact H7|].
  unfold evicts_oldest. intros E. rewrite H4, H6 in E. discriminate E.
Qed.

Lemma C2_witness :
  testingMinimax full_player = false /\
  tbl_size (_table full_player) = 100000 /\
  tbl_find (_table full_player) (board_hash full_player next_board) = None /\
  exists k v rest,
    tbl_entries (_table full_player) = (k, v) :: rest /\
    Permutation (tbl_entries (_table (snd (evaluate full_player next_board))))
                ((board_hash full_player next_board,
                  heuristic_score full_player next_board) :: rest).
Proof.
  destruct full_player_facts as (H1 & H2 & H3 & _).
  split; [exact H1|]. split; [exact H2|]. split; [exact H3|].
  destruct (C2_evicts_begin full_player next_board H1 H2 H3)
    as (k & v & rest & E & P & _).
  exists k, v, rest. split; [exact E | exact P].
Defined.

(** *** Games for the opening precomputation *)

Lemma C3_counterexample :
  getPossibleMoves (_board lone_player) BLACK = [] /\
  status_of (computeOpening 2 lone_player) = Undefined /\
  forall fuel q, computeOpening fuel lone_player <> Ok q.
Proof.
  split; [reflexivity|]. split; [vm_compute; reflexivity|].
  intros fuel q E.
  assert (H : status_of (computeOpening fuel lone_player) <> Returned).
  { destruct fuel as [|[|fuel]]; vm_compute; discriminate. }
  apply H. rewrite E. reflexivity.
Qed.

(** The keys of the first 25000 boards of the breadth-first order are in
    descending order, so that no two are equal. *)
Lemma long_game_checked :
  StdMap.descending
    (map (board_hash long_player)
         (bfs_boards opening_rounds (snd (opening_start long_player))))
  && (Z.of_nat (List.length
                  (map (board_hash long_player)
                       (bfs_boards opening_rounds
                                   (snd (opening_start long_player)))))
      =? 25000)
  = true.
Proof. vm_compute. reflexivity. Qed.

Lemma long_game_distinct :
  25000 <= distinct_hashes long_player
             (bfs_boards opening_rounds (snd (opening_start long_player))).
Proof.
  pose proof long_game_checked as H.
  apply andb_true_iff in H. destruct H as [H1 H2].
  apply StdMap.descending_NoDup in H1. apply Z.eqb_eq in H2.
  unfold distinct_hashes.
  rewrite (nodup_fixed_point string_dec H1), H2. apply Z.le_refl.
Qed.

Lemma C3_witness :
  testingMinimax long_player = false /\
  tbl_entries (_table long_player) = [] /\
  25000 <= distinct_hashes long_player
             (bfs_boards opening_rounds (snd (opening_start long_player))) /\
  exists q, computeOpening opening_rounds long_player = Ok q /\
            tbl_size (_table q) = 25000.
Proof.
  assert (T : testingMinimax long_player = false) by reflexivity.
  assert (E : tbl_entries (_table long_player) = []) by reflexivity.
  split; [exact T|]. split; [exact E|]. split; [exact long_game_distinct|].
  destruct (C3_opening_stops_at_bound long_player T E) as (_ & _ & H).
  exact (H opening_rounds opening_rounds long_game_distinct (le_n _)).
Defined.

End Examples.

(** ** The further properties on the sample positions *)

Section MoreExamples.

#[local] Existing Instance sample_ops.
#[local] Existing Instance StdMap_table.
#[local] Existing Instance sample_params.

Lemma heuristic_score_exact_witness :
  - 2 ^ 20 <= EDGEWEIGHT <= 2 ^ 20 /\
  - 2 ^ 20 <= CORNERWEIGHT <= 2 ^ 20 /\
  heuristic_score (black_player two_moves) reply_A = heuristic_value reply_A.
Proof.
  assert (He : - 2 ^ 20 <= EDGEWEIGHT <= 2 ^ 20) by (cbn; lia).
  assert (Hc : - 2 ^ 20 <= CORNERWEIGHT <= 2 ^ 20) by (cbn; lia).
  split; [exact He|]. split; [exact Hc|].
  exact (heuristic_score_exact (black_player two_moves) reply_A He Hc).
Defined.

Lemma evaluate_cache_transparent_witness :
  table_consistent (black_player two_moves) /\
  fst (evaluate (black_player two_moves) reply_A)
  = static_value (black_player two_moves) reply_A.
Proof.
  assert (C : table_consistent (black_player two_moves))
    by (apply empty_table_consistent; reflexivity).
  split; [exact C|].
  exact (proj1 (evaluate_cache_transparent (black_player two_moves) reply_A C)).
Defined.

Lemma evaluate_keeps_entries_witness :
  tbl_size (_table (snd (evaluate (black_player two_moves) reply_A))) < 100000 /\
  tbl_find (_table (snd (evaluate (black_player two_moves) reply_A)))
           "7680, 7680" = Some 4 /\
  tbl_find (_table (snd (evaluate (snd (evaluate (black_player two_moves)
                                                 reply_A)) reply_B)))
           "7680, 7680" = Some 4.
Proof.
  assert (S : tbl_size (_table (snd (evaluate (black_player two_moves) reply_A)))
              < 100000) by (vm_compute; reflexivity).
  assert (F : tbl_find (_table (snd (evaluate (black_player two_moves) reply_A)))
                       "7680, 7680" = Some 4) by (vm_compute; reflexivity).
  split; [exact S|]. split; [exact F|].
  exact (proj2 (evaluate_keeps_entries
                  (snd (evaluate (black_player two_moves) reply_A)) reply_B
                  "7680, 7680" 4) S F).
Defined.

Lemma minimaxHelper_window_witness :
  sides_ok (black_tester two_moves) /\
  table_consistent (black_tester two_moves) /\
  full_minimax BLACK WHITE (static_value (black_tester two_moves)) 2 1
               reply_B WHITE = Ok 3 /\
  exists r q,
    minimaxHelper 2 1 reply_B WHITE 5 INT_MAX (black_tester two_moves)
    = Ok (r, q) /\
    3 <= r <= 5.
Proof.
  assert (S : sides_ok (black_tester two_moves)) by reflexivity.
  assert (C : table_consistent (black_tester two_moves))
    by (apply empty_table_consistent; reflexivity).
  assert (F : full_minimax BLACK WHITE (static_value (black_tester two_moves))
                           2 1 reply_B WHITE = Ok 3)
    by (vm_compute; reflexivity).
  split; [exact S|]. split; [exact C|]. split; [exact F|].
  destruct (minimaxHelper_window (BO := sample_ops) 2 1 reply_B WHITE 5 INT_MAX 3
                                 (black_tester two_moves) S C F)
    as (r & q & E & _ & Hw).
  exists r, q. split; [exact E|].
  cbn in Hw. apply (proj2 Hw). lia.
Defined.

Lemma doMove_untimed_legal_witness :
  -1 <= 0 /\ table_int_valued (black_player two_moves) /\
  exists m q,
    doMove ticking 3 None (-1) (black_player two_moves) = Ok (m, q) /\
    legal_choice two_moves BLACK m /\
    _board q = Board_doMove two_moves m BLACK.
Proof.
  assert (V : table_int_valued (black_player two_moves))
    by (apply empty_table_int_valued; reflexivity).
  assert (B : -1 <= 0) by lia.
  assert (D : 1 <= MINIMAXDEPTH <= Z.of_nat 3) by (cbn; lia).
  assert (F : (2 <= 3)%nat) by lia.
  split; [exact B|]. split; [exact V|].
  exact (doMove_untimed_legal ticking 3 None (-1) (black_player two_moves)
                              B D F V).
Defined.

(** On [flip] the search of depth 3 takes the first move and the search
    of depth 4 the second. *)
Example flip_searches :
  chosen_move (searches 5 (black_player flip) 1) = Some (Some 0%nat) /\
  chosen_move (searches 5 (black_player flip) 2) = Some (Some 1%nat).
Proof. split; vm_compute; reflexivity. Qed.

Lemma doMove_iterative_deepening_witness :
  0 < 2000 /\
  time_remains (slow_clock 1) (slow_clock 0) (2000 ÷ 500) = true /\
  time_remains (slow_clock 2) (slow_clock 0) (2000 ÷ 500) = true /\
  time_remains (slow_clock 3) (slow_clock 0) (2000 ÷ 500) = false /\
  table_int_valued (black_player flip) /\
  exists m q1,
    searches 5 (after_opponent None (black_player flip)) 2 = Ok (m, q1) /\
    doMove slow_clock 5 None 2000 (black_player flip)
    = Ok (m, set_board
               (Board_doMove (_board (after_opponent None (black_player flip)))
                             m (_side (black_player flip))) q1) /\
    legal_choice (_board (after_opponent None (black_player flip)))
                 (_side (black_player flip)) m.
Proof.
  assert (B : 0 < 2000) by lia.
  assert (T1 : time_remains (slow_clock 1) (slow_clock 0) (2000 ÷ 500) = true)
    by (vm_compute; reflexivity).
  assert (T2 : time_remains (slow_clock 2) (slow_clock 0) (2000 ÷ 500) = true)
    by (vm_compute; reflexivity).
  assert (T3 : time_remains (slow_clock 3) (slow_clock 0) (2000 ÷ 500) = false)
    by (vm_compute; reflexivity).
  assert (P : forall i, (i < 2)%nat ->
                time_remains (slow_clock (1 + i)) (slow_clock 0) (2000 ÷ 500)
                = true).
  { intros i Hi. destruct i as [|[|i]]; [exact T1 | exact T2 | lia]. }
  assert (V : table_int_valued (black_player flip))
    by (apply empty_table_int_valued; reflexivity).
  assert (D : 1 <= MINIMAXDEPTH) by (cbn; lia).
  assert (F : MINIMAXDEPTH + Z.of_nat 2 <= Z.of_nat 5) by (cbn; lia).
  assert (F2 : (2 <= 5)%nat) by lia.
  assert (M : Z.of_nat 5 <= INT_MAX) by (vm_compute; discriminate).
  assert (K : (0 < 2)%nat) by lia.
  split; [exact B|]. split; [exact T1|]. split; [exact T2|].
  split; [exact T3|]. split; [exact V|].
  destruct (doMove_iterative_deepening slow_clock 5 None 2000
              (black_player flip) 2 B P T3 D F F2 M V)
    as (m & q1 & Hs & E & _ & Hl).
  exists m, q1. split; [exact Hs|]. split; [exact E | exact (Hl K)].
Defined.

Lemma doMove_keeps_table_witness :
  table_ok (black_player two_moves) /\
  match doMove ticking 3 None (-1) (black_player two_moves) with
  | Ok (m, q) => table_ok q /\ same_setup (black_player two_moves) q
  | _ => True
  end.
Proof.
  assert (H : table_ok (black_player two_moves)).
  { split; [apply empty_table_consistent; reflexivity|].
    split; [apply empty_table_int_valued; reflexivity | cbn; lia]. }
  split; [exact H|].
  exact (doMove_keeps_table ticking 3 None (-1) (black_player two_moves) H).
Defined.

Lemma doMove_testing_leaves_table_witness :
  testingMinimax (black_tester two_moves) = true /\
  match doMove ticking 2 None (-1) (black_tester two_moves) with
  | Ok (m, q) =>
      _table q = _table (black_tester two_moves) /\
      table_log q = table_log (black_tester two_moves)
  | _ => True
  end.
Proof.
  split; [reflexivity|].
  exact (doMove_testing_leaves_table ticking 2 None (-1)
                                     (black_tester two_moves) eq_refl).
Defined.

Lemma computeOpening_returns_witness :
  testingMinimax long_player = false /\
  tbl_entries (_table long_player) = [] /\
  25000 <= distinct_hashes long_player
             (bfs_boards opening_rounds (snd (opening_start long_player))) /\
  exists q r,
    computeOpening opening_rounds long_player = Ok q /\
    live_boards q = live_boards long_player /\
    live_moves q
    = live_moves long_player + bfs_moves r (snd (opening_start long_player)).
Proof.
  assert (T : testingMinimax long_player = false) by reflexivity.
  assert (E : tbl_entries (_table long_player) = []) by reflexivity.
  split; [exact T|]. split; [exact E|]. split; [exact long_game_distinct|].
  destruct (computeOpening_returns long_player opening_rounds opening_rounds
              T E long_game_distinct (le_n _))
    as (q & r & Hq & _ & _ & _ & Hb & _ & _ & _ & Hm).
  exists q, r. split; [exact Hq|]. split; [exact Hb | exact Hm].
Defined.

End MoreExamples.
